(** * OpenSeadragon.DataTypeConvertor: the conversion-graph resolver

    A shallow embedding of [src/datatypeconvertor.js]: the private
    [WeightedGraph] class (vertices, adjacency lists, [dijkstra]) and the
    [DataTypeConvertor] class ([learn], [learnDestroy], [getConversionPath],
    [convert], [destroy], [guessType]).

    JavaScript objects are kept in an explicit store: a [PriorityQueue.Node]
    is an address into the list of nodes owned by the graph, so that the
    sharing of one node between the vertex map and all the edges that mention
    it is visible.  Object literals used as maps ([vertices], [adjacencyList],
    [destructors], [_known]) are finite maps keyed by strings; own properties
    only, type identifiers are taken not to collide with the names inherited
    from [Object.prototype]. *)

From Stdlib Require Import ZArith Lia.
From stdpp Require Import gmap strings list fin_maps.

Open Scope Z_scope.

(** ** Numbers *)

(** The numbers the search computes with: integers and [Infinity]. *)
Inductive num : Type :=
| Fin (z : Z)
| Infinity.

(** [a + w] for a finite weight [w]. *)
Definition num_add (a : num) (w : Z) : num :=
  match a with
  | Fin z => Fin (z + w)
  | Infinity => Infinity
  end.

(** [a < b]. *)
Definition num_ltb (a b : num) : bool :=
  match a, b with
  | Fin x, Fin y => x <? y
  | Fin _, Infinity => true
  | Infinity, _ => false
  end.

(** [a > b]. *)
Definition num_gtb (a b : num) : bool := num_ltb b a.

(** ToInt32, applied by JavaScript to both operands of a bitwise operator. *)
Definition to_int32 (z : Z) : Z := (z + 2 ^ 31) mod 2 ^ 32 - 2 ^ 31.

(** The binary operator [^] of JavaScript: bitwise exclusive or on 32-bit
    signed integers.  It binds weaker than [*] and [+]. *)
Definition js_xor (a b : Z) : Z := Z.lxor (to_int32 a) (to_int32 b).

(** ** Values *)

#[local] Set Warnings "-register-all".

(** Data items handed to [convert] and [guessType].  A host object carries
    its class tag, its [nodeName] when it is a DOM node, and the string its
    [getType] method returns when it has one. *)
Inductive JsVal : Type :=
| JUndefined
| JNull
| JBool (b : bool)
| JNum (n : Z)
| JStr (s : string)
| JArray (items : list JsVal)
| JObject (class : string) (nodeName : option string) (getType : option string).

(** [!y] is false. *)
Definition truthy (y : JsVal) : bool :=
  match y with
  | JUndefined | JNull => false
  | JBool b => b
  | JNum n => negb (n =? 0)
  | JStr s => negb (String.eqb s EmptyString)
  | JArray _ | JObject _ _ _ => true
  end.

(** What a call can do besides returning. *)
Inductive JsError : Type :=
| TypeError (what : string)
| UserError (payload : JsVal).

(** How a call ends: it returns, it throws, or the bound the model puts on
    its loops was too small to see it return. *)
Inductive Result (A : Type) : Type :=
| Ok (a : A)
| Raise (err : JsError)
| OutOfFuel.
Arguments Ok {A} a.
Arguments Raise {A} err.
Arguments OutOfFuel {A}.

(** The state of a promise as far as [then] observes it. *)
Inductive PromiseState : Type :=
| Fulfils (res : JsVal)
| Rejects (err : JsError)
| NeverSettles.

(** What a registered conversion does with its argument: it returns a value,
    returns a promise of one ([$.type(y) === "promise"]), or throws. *)
Inductive TransformResult : Type :=
| Returns (y : JsVal)
| ReturnsPromise (p : PromiseState)
| Throws (err : JsError).

Definition TypeConvertor : Type := JsVal -> TransformResult.

(** A destructor receives the data item; its return value is ignored. *)
Definition Destructor : Type := JsVal -> Result unit.

(** ** Priority-queue nodes and the object store *)

(** A reference to a node object. *)
Abbreviation addr := nat (only parsing).

(** [OpenSeadragon.PriorityQueue.Node] with the scratch fields [dijkstra]
    hangs on it.  [index = None] is a deleted or never assigned [index];
    [_previous = None] is [null] or [undefined]. *)
Record PNode : Type := mkNode {
  value : string;
  key : num;
  index : option nat;
  _previous : option addr
}.

#[global] Instance PNode_inhabited : Inhabited PNode :=
  populate (mkNode EmptyString (Fin 0) None None).

Definition set_key (k : num) (n : PNode) : PNode :=
  mkNode (value n) k (index n) (_previous n).
Definition set_index (i : option nat) (n : PNode) : PNode :=
  mkNode (value n) (key n) i (_previous n).
Definition set_previous (p : option addr) (n : PNode) : PNode :=
  mkNode (value n) (key n) (index n) p.

(** The heap of node objects; an address is a position in it. *)
Abbreviation Store := (list PNode) (only parsing).

Definition deref (st : Store) (a : addr) : PNode := st !!! a.
Definition update (a : addr) (f : PNode -> PNode) (st : Store) : Store :=
  <[a := f (deref st a)]> st.

(** ** The priority queue *)

(** Modelled from the spec: [OpenSeadragon.PriorityQueue], whose source file
    is not part of the sources at hand.  An indexed binary min-heap over
    nodes keyed by [key]: [insertNode] appends and sifts up, recording the
    node's [index]; [remove] returns the root, clears its [index], moves the
    last element to the root and sifts down; [decreaseKey] updates the key
    and sifts up from the recorded [index], a node that is not in the queue
    being inserted; [getCount] is the number of queued nodes. *)
Module PriorityQueue.

(** The array [nodes_] of queued nodes. *)
Abbreviation t := (list addr) (only parsing).

Definition empty : t := [].

Definition getCount (q : t) : nat := length q.

(** Exchange the heap slots [i] and [j], which hold [a] and [b]. *)
Definition swap (st : Store) (q : t) (i j : nat) (a b : addr) : Store * t :=
  (update a (set_index (Some j)) (update b (set_index (Some i)) st),
   <[j := a]> (<[i := b]> q)).

Fixpoint moveUp (fuel : nat) (st : Store) (q : t) (i : nat) : Store * t :=
  match fuel with
  | O => (st, q)
  | S fuel' =>
      if (i =? 0)%nat then (st, q)
      else
        let p := ((i - 1) / 2)%nat in
        match q !! i, q !! p with
        | Some a, Some b =>
            if num_gtb (key (deref st b)) (key (deref st a))
            then let '(st', q') := swap st q i p a b in moveUp fuel' st' q' p
            else (st, q)
        | _, _ => (st, q)
        end
  end.

Fixpoint moveDown (fuel : nat) (st : Store) (q : t) (i : nat) : Store * t :=
  match fuel with
  | O => (st, q)
  | S fuel' =>
      let l := (2 * i + 1)%nat in
      let r := (2 * i + 2)%nat in
      match q !! i, q !! l with
      | Some a, Some bl =>
          let '(c, b) :=
            match q !! r with
            | Some br =>
                if num_ltb (key (deref st br)) (key (deref st bl))
                then (r, br) else (l, bl)
            | None => (l, bl)
            end in
          if num_gtb (key (deref st b)) (key (deref st a))
          then (st, q)
          else let '(st', q') := swap st q i c a b in moveDown fuel' st' q' c
      | _, _ => (st, q)
      end
  end.

Definition insertNode (st : Store) (q : t) (node : addr) : Store * t :=
  let i := length q in
  moveUp i (update node (set_index (Some i)) st) (q ++ [node]) i.

(** [None] on an empty queue. *)
Definition remove (st : Store) (q : t) : option (Store * t * addr) :=
  match q with
  | [] => None
  | root :: rest =>
      match rest with
      | [] => Some (update root (set_index None) st, [], root)
      | _ :: _ =>
          let lastNode := List.last rest root in
          let q1 := lastNode :: removelast rest in
          let st1 := update lastNode (set_index (Some 0%nat)) st in
          let '(st2, q2) := moveDown (length q1) st1 q1 0 in
          Some (update root (set_index None) st2, q2, root)
      end
  end.

Definition decreaseKey (st : Store) (q : t) (node : addr) (k : num)
  : Store * t :=
  let st1 := update node (set_key k) st in
  match index (deref st1 node) with
  | None => insertNode st1 q node
  | Some i => moveUp i st1 q i
  end.

End PriorityQueue.

(** ** The weighted graph *)

(** A [ConversionStep]: the object literal [addEdge] pushes.  [target] and
    [origin] are what [this.vertices[...]] gave, [None] being [undefined]. *)
Record Edge : Type := mkEdge {
  target : option addr;
  origin : option addr;
  weight : Z;
  transform : TypeConvertor
}.

(** The object [dijkstra] returns for a path. *)
Record Conversion : Type := mkConversion {
  path : list (option Edge);
  cost : num
}.

Record WeightedGraph : Type := mkGraph {
  store : Store;
  adjacencyList : gmap string (list Edge);
  vertices : gmap string addr
}.

(** [new WeightedGraph()]. *)
Definition newGraph : WeightedGraph := mkGraph [] ∅ ∅.

Definition with_store (st : Store) (g : WeightedGraph) : WeightedGraph :=
  mkGraph st (adjacencyList g) (vertices g).

Definition addVertex (g : WeightedGraph) (vertex : string)
  : WeightedGraph * bool :=
  match vertices g !! vertex with
  | None =>
      let a := length (store g) in
      (mkGraph (store g ++ [mkNode vertex (Fin 0) None None])
               (<[vertex := []]> (adjacencyList g))
               (<[vertex := a]> (vertices g)),
       true)
  | Some _ => (g, false)
  end.

Definition addEdge (g : WeightedGraph) (vertex1 vertex2 : string)
    (w : Z) (f : TypeConvertor) : Result WeightedGraph :=
  match adjacencyList g !! vertex1 with
  | None => Raise (TypeError "adjacencyList[vertex1] is undefined")
  | Some edges =>
      let e := mkEdge (vertices g !! vertex2) (vertices g !! vertex1) w f in
      Ok (mkGraph (store g)
                  (<[vertex1 := edges ++ [e]]> (adjacencyList g))
                  (vertices g))
  end.

(** *** [dijkstra] *)

(** The body of [for (let vertex in this.vertices)]: one vertex is keyed 0
    and queued, every other one is keyed [Infinity] and loses its [index];
    all lose [_previous]. *)
Definition init_vertex (start : string) (acc : Store * PriorityQueue.t)
    (kv : string * addr) : Store * PriorityQueue.t :=
  let '(st, q) := acc in
  let vertex := kv.2 in
  let '(st1, q1) :=
    if String.eqb (value (deref st vertex)) start
    then PriorityQueue.insertNode (update vertex (set_key (Fin 0)) st) q vertex
    else (update vertex (set_index None)
            (update vertex (set_key Infinity) st), q) in
  (update vertex (set_previous None) st1, q1).

Definition init_search (g : WeightedGraph) (start : string)
  : Store * PriorityQueue.t :=
  foldl (init_vertex start) (store g, PriorityQueue.empty)
        (map_to_list (vertices g)).

(** The body of [for (let neighborKey in neighbors)]: relax one edge out of
    [smallestNode].  Reading [key] of an [undefined] target throws. *)
Definition relax (smallestNode : addr) (st : Store) (q : PriorityQueue.t)
    (edge : Edge) : Result (Store * PriorityQueue.t) :=
  let newCost := num_add (key (deref st smallestNode)) (weight edge) in
  match target edge with
  | None => Raise (TypeError "edge.target is undefined")
  | Some nextNeighbor =>
      if num_ltb newCost (key (deref st nextNeighbor))
      then
        let st1 := update nextNeighbor (set_previous (Some smallestNode)) st in
        Ok (PriorityQueue.decreaseKey st1 q nextNeighbor newCost)
      else Ok (st, q)
  end.

(** The state is returned also when the loop is left by a throw. *)
Fixpoint relax_all (smallestNode : addr) (st : Store) (q : PriorityQueue.t)
    (neighbors : list Edge) : Store * PriorityQueue.t * Result unit :=
  match neighbors with
  | [] => (st, q, Ok tt)
  | edge :: rest =>
      match relax smallestNode st q edge with
      | Ok (st', q') => relax_all smallestNode st' q' rest
      | Raise e => (st, q, Raise e)
      | OutOfFuel => (st, q, OutOfFuel)
      end
  end.

(** [start === finish] and [smallestNode.value === finish]; the destination
    is [None] when [undefined] was passed for it. *)
Definition same_type (a : string) (finish : option string) : bool :=
  match finish with
  | Some b => String.eqb a b
  | None => false
  end.

(** [while (nodes.getCount() > 0)]; the result is the last [smallestNode]. *)
Fixpoint search (fuel : nat) (adj : gmap string (list Edge))
    (finish : option string) (st : Store) (q : PriorityQueue.t)
    (smallestNode : option addr) : Store * Result (option addr) :=
  match PriorityQueue.remove st q with
  | None => (st, Ok smallestNode)
  | Some (st1, q1, smallest) =>
      match fuel with
      | O => (st, OutOfFuel)
      | S fuel' =>
          if same_type (value (deref st1 smallest)) finish
          then (st1, Ok (Some smallest))
          else
            let neighbors := default [] (adj !! value (deref st1 smallest)) in
            match relax_all smallest st1 q1 neighbors with
            | (st2, q2, Ok _) => search fuel' adj finish st2 q2 (Some smallest)
            | (st2, _, Raise e) => (st2, Raise e)
            | (st2, _, OutOfFuel) => (st2, OutOfFuel)
            end
      end
  end.

(** [neighbors.find(x => x.target.value === to)]. *)
Fixpoint find_target (st : Store) (to : string) (edges : list Edge)
  : Result (option Edge) :=
  match edges with
  | [] => Ok None
  | x :: rest =>
      match target x with
      | None => Raise (TypeError "x.target is undefined")
      | Some t =>
          if String.eqb (value (deref st t)) to then Ok (Some x)
          else find_target st to rest
      end
  end.

(** [while (smallestNode._previous)]: the edges pushed, last edge first. *)
Fixpoint backtrack (fuel : nat) (adj : gmap string (list Edge)) (st : Store)
    (smallestNode : addr) (pushed : list (option Edge))
  : Result (list (option Edge)) :=
  match _previous (deref st smallestNode) with
  | None => Ok pushed
  | Some parent =>
      match fuel with
      | O => OutOfFuel
      | S fuel' =>
          let to := value (deref st smallestNode) in
          let from := value (deref st parent) in
          match adj !! from with
          | None => Raise (TypeError "adjacencyList[from] is undefined")
          | Some edges =>
              match find_target st to edges with
              | Ok found => backtrack fuel' adj st parent (pushed ++ [found])
              | Raise e => Raise e
              | OutOfFuel => OutOfFuel
              end
          end
      end
  end.

(** [dijkstra(start, finish)].  [Ok None] is [undefined], "no path".  Each
    of the two [while] loops may run [fuel] times. *)
Definition dijkstra (fuel : nat) (g : WeightedGraph) (start : string)
    (finish : option string) : WeightedGraph * Result (option Conversion) :=
  if same_type start finish then (g, Ok (Some (mkConversion [] (Fin 0))))
  else
    let '(st0, nodes) := init_search g start in
    match search fuel (adjacencyList g) finish st0 nodes None with
    | (st1, Ok None) => (with_store st1 g, Ok None)
    | (st1, Ok (Some smallestNode)) =>
        match _previous (deref st1 smallestNode) with
        | None => (with_store st1 g, Ok None)
        | Some _ =>
            let finalCost := key (deref st1 smallestNode) in
            match backtrack fuel (adjacencyList g) st1 smallestNode [] with
            | Ok pushed =>
                (with_store st1 g,
                 Ok (Some (mkConversion (reverse pushed) finalCost)))
            | Raise e => (with_store st1 g, Raise e)
            | OutOfFuel => (with_store st1 g, OutOfFuel)
            end
        end
    | (st1, Raise e) => (with_store st1 g, Raise e)
    | (st1, OutOfFuel) => (with_store st1 g, OutOfFuel)
    end.

(** ** The convertor *)

(** What a test harness can observe of a call, in order: failed
    [$.console.assert], [$.console.error] and [$.console.warn] entries,
    invocations of [WeightedGraph.dijkstra], of an edge's [transform] and of
    a registered destructor. *)
Inductive Event : Type :=
| EAssert (message : string)
| EError (from : string) (to : list string)
| EWarn (edgeTarget : option addr)
| ESearch (start : string) (finish : option string)
| ETransform (edge : Edge) (x : JsVal)
| EDestroy (type : string) (data : JsVal).

Record DataTypeConvertor : Type := mkConvertor {
  graph : WeightedGraph;
  destructors : gmap string Destructor;
  _known : gmap string (gmap string (option Conversion))
}.

(** Methods of the convertor: they read and write [this], leave a trace and
    return, throw or fail to return. *)
Definition M (A : Type) : Type :=
  DataTypeConvertor -> DataTypeConvertor * list Event * Result A.

Definition ret {A} (a : A) : M A := fun this => (this, [], Ok a).

Definition bind {A B} (m : M A) (k : A -> M B) : M B :=
  fun this =>
    match m this with
    | (this1, tr1, Ok a) =>
        let '(this2, tr2, r) := k a this1 in (this2, tr1 ++ tr2, r)
    | (this1, tr1, Raise e) => (this1, tr1, Raise e)
    | (this1, tr1, OutOfFuel) => (this1, tr1, OutOfFuel)
    end.

Notation "'let*' x ':=' m 'in' k" := (bind m (fun x => k))
  (at level 10, x pattern, m at level 100, k at level 200).

Definition emit (e : Event) : M unit := fun this => (this, [e], Ok tt).
Definition get_this : M DataTypeConvertor := fun this => (this, [], Ok this).
Definition set_graph (g : WeightedGraph) : M unit :=
  fun this => (mkConvertor g (destructors this) (_known this), [], Ok tt).
Definition set_known (k : gmap string (gmap string (option Conversion)))
  : M unit :=
  fun this => (mkConvertor (graph this) (destructors this) k, [], Ok tt).
Definition lift {A} (r : Result A) : M A := fun this => (this, [], r).

(** [$.console.assert(condition, message)] only logs. *)
Definition console_assert (condition : bool) (message : string) : M unit :=
  if condition then ret tt else emit (EAssert message).

(** The clamp of [learn]: [Math.min(Math.max(costMultiplier, 1), 10 ^ 5)]. *)
Definition clamp_multiplier (costMultiplier : Z) : Z :=
  Z.min (Z.max costMultiplier 1) (js_xor 10 5).

(** The weight [learn] gives the edge, from the arguments as passed:
    [costPower++], the clamp, then [costPower * 10 ^ 5 + costMultiplier],
    which JavaScript reads as [(costPower * 10) ^ (5 + costMultiplier)]. *)
Definition edge_weight (costPower costMultiplier : Z) : Z :=
  let costPower := costPower + 1 in
  let costMultiplier := clamp_multiplier costMultiplier in
  js_xor (costPower * 10) (5 + costMultiplier).

(** [learn(from, to, callback, costPower, costMultiplier)]; the callback is
    a function by its type. *)
Definition learn (from to : string) (callback : TypeConvertor)
    (costPower costMultiplier : Z) : M unit :=
  let* _ := console_assert ((0 <=? costPower) && (costPower <=? 7))
    "[DataTypeConvertor] Conversion costPower must be between <0, 7>." in
  let* this := get_this in
  let g1 := (addVertex (graph this) from).1 in
  let* _ := set_graph g1 in
  let g2 := (addVertex g1 to).1 in
  let* _ := set_graph g2 in
  let* g3 := lift (addEdge g2 from to
                     (edge_weight costPower costMultiplier) callback) in
  let* _ := set_graph g3 in
  set_known ∅.

(** [learnDestroy(type, callback)]. *)
Definition learnDestroy (type : string) (callback : Destructor) : M unit :=
  fun this =>
    (mkConvertor (graph this) (<[type := callback]> (destructors this))
                 (_known this), [], Ok tt).

(** [destroy(type, data)]. *)
Definition destroy (type : string) (data : JsVal) : M unit :=
  let* this := get_this in
  match destructors this !! type with
  | Some destructor =>
      let* _ := emit (EDestroy type data) in lift (destructor data)
  | None => ret tt
  end.

(** The second argument of [getConversionPath]: a string or an array. *)
Inductive ToArg : Type :=
| ToString (to : string)
| ToArray (to : list string).

(** A property key made from a possibly [undefined] type. *)
Definition prop_key (type : option string) : string :=
  default "undefined" type.

(** A cache entry that is there and is not [undefined]. *)
Definition known_at (knownFrom : gmap string (option Conversion))
    (outType : string) : option Conversion :=
  mjoin (knownFrom !! outType).

(** [for (const outType of to)]: the running best conversion, its cost and
    the selected type. *)
Definition pick_known (knownFrom : gmap string (option Conversion))
    (acc : option Conversion * num * option string) (outType : string)
  : option Conversion * num * option string :=
  let '(bestConvertorPath, bestCost, selectedType) := acc in
  match known_at knownFrom outType with
  | Some conversion =>
      if num_gtb bestCost (cost conversion)
      then (Some conversion, cost conversion, Some outType)
      else acc
  | None => acc
  end.

(** [getConversionPath(from, to)]; [Ok None] is [undefined]. *)
Definition getConversionPath (fuel : nat) (from : string) (to : ToArg)
  : M (option (list (option Edge))) :=
  let* this := get_this in
  let* knownFrom :=
    match _known this !! from with
    | Some knownFrom => ret knownFrom
    | None =>
        let* _ := set_known (<[from := ∅]> (_known this)) in ret ∅
    end in
  let* choice :=
    match to with
    | ToArray to =>
        let* _ := console_assert (negb (length to =? 0)%nat)
          "[getConversionPath] conversion 'to' type must be defined." in
        let '(best, _, selected) :=
          foldl (pick_known knownFrom) (None, Infinity, head to) to in
        ret (best, selected)
    | ToString to => ret (known_at knownFrom to, Some to)
    end in
  let '(bestConvertorPath, selectedType) := choice in
  match bestConvertorPath with
  | Some conversion => ret (Some (path conversion))
  | None =>
      let* _ := emit (ESearch from selectedType) in
      let* this := get_this in
      let '(g, found) := dijkstra fuel (graph this) from selectedType in
      let* _ := set_graph g in
      let* found := lift found in
      let* this := get_this in
      let* _ := set_known
        (<[from := <[prop_key selectedType := found]>
                     (default ∅ (_known this !! from))]> (_known this)) in
      ret (path <$> found)
  end.

(** How the promise [convert] returns ends up. *)
Inductive Settled : Type :=
| Resolved (v : JsVal)
| Rejected (err : JsError)
| Pending.

(** What a promise made by [then] does with its callback's completion: a
    throw inside the callback rejects it. *)
Definition in_then (r : Result Settled) : Result Settled :=
  match r with
  | Ok s => Ok s
  | Raise e => Ok (Rejected e)
  | OutOfFuel => OutOfFuel
  end.

Definition then_step (k : M Settled) : M Settled :=
  fun this => let '(this', tr, r) := k this in (this', tr, in_then r).

(** The local function [step(x, i)] of [convert], on the steps that remain:
    [rest] is [conversionPath] from position [i] on. *)
Fixpoint step (rest : list (option Edge)) (x : JsVal) : M Settled :=
  match rest with
  | [] => ret (Resolved x)
  | None :: _ => lift (Raise (TypeError "edge is undefined"))
  | Some edge :: rest' =>
      let* _ := emit (ETransform edge x) in
      match transform edge x with
      | Throws e => lift (Raise e)
      | Returns y =>
          if truthy y then
            let* this := get_this in
            let* origin :=
              match origin edge with
              | Some o => ret (value (deref (store (graph this)) o))
              | None => lift (Raise (TypeError "edge.origin is undefined"))
              end in
            let* _ := destroy origin x in
            then_step (step rest' y)
          else
            let* _ := emit (EWarn (target edge)) in
            ret (Resolved JUndefined)
      | ReturnsPromise p =>
          let* this := get_this in
          let* origin :=
            match origin edge with
            | Some o => ret (value (deref (store (graph this)) o))
            | None => lift (Raise (TypeError "edge.origin is undefined"))
            end in
          let* _ := destroy origin x in
          match p with
          | Fulfils res => then_step (step rest' res)
          | Rejects e => ret (Rejected e)
          | NeverSettles => ret Pending
          end
      end
  end.

(** [convert(x, from, ...to)]. *)
Definition convert (fuel : nat) (x : JsVal) (from : string)
    (to : list string) : M Settled :=
  let* conversionPath := getConversionPath fuel from (ToArray to) in
  match conversionPath with
  | None =>
      let* _ := emit (EError from to) in
      ret (Resolved JUndefined)
  | Some conversionPath => step conversionPath x
  end.

(** The six conversions taught by the constructor are host calls. *)
Record Builtins : Type := mkBuiltins {
  canvas_toDataURL : TypeConvertor;
  image_url : TypeConvertor;
  canvas_getContext : TypeConvertor;
  context2D_canvas : TypeConvertor;
  image_drawToCanvas : TypeConvertor;
  rasterUrl_loadImage : TypeConvertor
}.

(** [this.graph = new WeightedGraph(); this.destructors = {};]. *)
Definition init_fields : M unit :=
  fun this => (mkConvertor newGraph ∅ (_known this), [], Ok tt).

(** [new $.DataTypeConvertor()]. *)
Definition constructor (host : Builtins) : M unit :=
  let* _ := init_fields in
  let* _ := learn "canvas" "rasterUrl" (canvas_toDataURL host) 1 1 in
  let* _ := learn "image" "rasterUrl" (image_url host) 0 1 in
  let* _ := learn "canvas" "context2d" (canvas_getContext host) 0 1 in
  let* _ := learn "context2d" "canvas" (context2D_canvas host) 0 1 in
  let* _ := learn "image" "canvas" (image_drawToCanvas host) 1 1 in
  learn "rasterUrl" "image" (rasterUrl_loadImage host) 1 1.

(** The object before its constructor has run. *)
Definition blank : DataTypeConvertor := mkConvertor newGraph ∅ ∅.

(** ** [guessType] *)

(** [types.sort()] on strings without duplicates: insertion by code-unit
    order. *)
Fixpoint insert_sorted (s : string) (l : list string) : list string :=
  match l with
  | [] => [s]
  | t :: rest =>
      if String.ltb t s then t :: insert_sorted s rest else s :: l
  end.

Definition js_sort (l : list string) : list string :=
  foldr insert_sorted [] l.

(** [types.join(",")]. *)
Fixpoint js_join (l : list string) : string :=
  match l with
  | [] => EmptyString
  | [s] => s
  | s :: rest => s +:+ "," +:+ js_join rest
  end.

(** [types.includes(type)]. *)
Definition includes (types : list string) (type : string) : bool :=
  existsb (String.eqb type) types.

Section GuessType.

(** [$.type], the runtime-category tag of a value; its table is not part
    of the sources at hand. *)
Variable type : JsVal -> string.

(** Reading the property [getType] of [x] and asking [$.isFunction] of it;
    reading a property of [null] or [undefined] throws. *)
Definition getType_method (x : JsVal) : Result (option string) :=
  match x with
  | JUndefined | JNull =>
      Raise (TypeError "cannot read properties of null or undefined")
  | JObject _ _ getType => Ok getType
  | _ => Ok None
  end.

(** The tail of [guessType], reached when [x] is not an array. *)
Definition guessType_scalar (x : JsVal) : Result string :=
  let guessType := type x in
  if String.eqb guessType "dom-node"
  then
    (* [guessType.nodeName.toLowerCase()]: [guessType] is the string
       "dom-node", its [nodeName] is [undefined]. *)
    Raise (TypeError "guessType.nodeName is undefined")
  else if String.eqb guessType "object"
  then
    match getType_method x with
    | Ok (Some reported) => Ok reported
    | Ok None => Ok guessType
    | Raise e => Raise e
    | OutOfFuel => OutOfFuel
    end
  else Ok guessType.

Fixpoint guessType (x : JsVal) : Result string :=
  match x with
  | JArray items =>
      let fix each (items : list JsVal) (types : list string)
        : Result (list string) :=
        match items with
        | [] => Ok types
        | JUndefined :: rest | JNull :: rest => each rest types
        | item :: rest =>
            match guessType item with
            | Ok type =>
                if includes types type then each rest types
                else each rest (types ++ [type])
            | Raise e => Raise e
            | OutOfFuel => OutOfFuel
            end
        end in
      match each items [] with
      | Ok types => Ok ("Array [" +:+ js_join (js_sort types) +:+ "]")
      | Raise e => Raise e
      | OutOfFuel => OutOfFuel
      end
  | _ => guessType_scalar x
  end.

End GuessType.

(** ** Vocabulary of the properties *)

(** The convertor as [new $.DataTypeConvertor()] leaves it. *)
Definition fresh (host : Builtins) : DataTypeConvertor :=
  (constructor host blank).1.1.

(** [edge.origin.value] and [edge.target.value]. *)
Definition origin_value (st : Store) (e : Edge) : option string :=
  (fun a => value (deref st a)) <$> origin e.
Definition target_value (st : Store) (e : Edge) : option string :=
  (fun a => value (deref st a)) <$> target e.

(** [p[i].target.value === p[i+1].origin.value] for every [i] before the
    last. *)
Fixpoint contiguous (st : Store) (p : list Edge) : Prop :=
  match p with
  | e1 :: (e2 :: _) as rest =>
      target_value st e1 = origin_value st e2 /\ contiguous st rest
  | _ => True
  end.

(** A list of edges that leads from [A] to [B]. *)
Definition path_valid (st : Store) (A B : string) (p : list (option Edge))
  : Prop :=
  exists es : list Edge,
    p = Some <$> es /\
    (head es ≫= origin_value st) = Some A /\
    (last es ≫= target_value st) = Some B /\
    contiguous st es.

(** One call of [learn]. *)
Record LearnCall : Type := mkLearnCall {
  lc_from : string;
  lc_to : string;
  lc_callback : TypeConvertor;
  lc_costPower : Z;
  lc_costMultiplier : Z
}.

Definition learn_call (c : LearnCall) : M unit :=
  learn (lc_from c) (lc_to c) (lc_callback c)
        (lc_costPower c) (lc_costMultiplier c).

Fixpoint learn_all (calls : list LearnCall) : M unit :=
  match calls with
  | [] => ret tt
  | c :: rest => let* _ := learn_call c in learn_all rest
  end.

(** A sample [$.type] to evaluate [guessType] with: the tags of the
    primitive categories, "dom-node" for an object that has a [nodeName],
    "object" for any other object. *)
Definition sample_type (x : JsVal) : string :=
  match x with
  | JUndefined => "undefined"
  | JNull => "null"
  | JBool _ => "boolean"
  | JNum _ => "number"
  | JStr _ => "string"
  | JArray _ => "array"
  | JObject _ (Some _) _ => "dom-node"
  | JObject _ None _ => "object"
  end.

(** Host conversions to evaluate with: each hands its argument on. *)
Definition sample_host : Builtins :=
  let pass : TypeConvertor := fun x => Returns x in
  mkBuiltins pass pass pass pass pass pass.

(** The edge [learn] stores: the last one of [from]'s adjacency list. *)
Definition learnt_weight (from to : string) (costPower costMultiplier : Z)
  : option Z :=
  let this := (learn from to (fun x => Returns x) costPower costMultiplier
                 blank).1.1 in
  weight <$> (adjacencyList (graph this) !! from ≫= last).

(** The type the last edge of a path leads to. *)
Definition path_end (st : Store) (p : list (option Edge)) : option string :=
  mjoin (last p) ≫= target_value st.

(** No [$.console.error] entry in a trace. *)
Definition no_error_logged (tr : list Event) : Prop :=
  Forall (fun ev => match ev with EError _ _ => False | _ => True end) tr.

(** The transforms a trace shows, as the types they lead from and to. *)
Definition transforms_run (st : Store) (tr : list Event)
  : list (option string * option string) :=
  omap (fun ev => match ev with
                  | ETransform e _ =>
                      Some (origin_value st e, target_value st e)
                  | _ => None
                  end) tr.

(** Projections of the store. *)
Definition values (st : Store) : list string := value <$> st.

(** Functions of a node that do not look at its [index]. *)
Definition index_blind {B} (g : PNode -> B) : Prop :=
  forall i n, g (set_index i n) = g n.

Definition is_fin (k : num) : Prop := exists z, k = Fin z.

(** An edge of the graph: a member of some adjacency list. *)
Definition edge_of (g : WeightedGraph) (k : string) (e : Edge) : Prop :=
  exists es, adjacencyList g !! k = Some es /\ e ∈ es.

(** The graph is consistent: the vertex map and the node objects name each
    other, a vertex has an adjacency list, and an edge lies in the list of
    its origin and joins two nodes of the graph. *)
Record consistent (g : WeightedGraph) : Prop := mkConsistent {
  vertex_node : forall k a,
    vertices g !! k = Some a ->
    (a < length (store g))%nat /\ value (deref (store g) a) = k;
  node_vertex : forall a,
    (a < length (store g))%nat ->
    vertices g !! value (deref (store g) a) = Some a;
  vertex_adjacency : forall k,
    is_Some (vertices g !! k) -> is_Some (adjacencyList g !! k);
  edge_ends : forall k e,
    edge_of g k e ->
    origin e = vertices g !! k /\ is_Some (origin e) /\
    exists t, target e = Some t /\ (t < length (store g))%nat
}.




(** What the cache may hold: conversions of finite cost, made of edges of
    the graph, and the empty path from a type to itself. *)
Definition cache_ok (this : DataTypeConvertor) : Prop :=
  forall from knownFrom to c,
    _known this !! from = Some knownFrom ->
    knownFrom !! to = Some (Some c) ->
    is_fin (cost c) /\
    (to = from -> path c = []) /\
    (forall e, Some e ∈ path c -> exists k, edge_of (graph this) k e).

Record registry_ok (this : DataTypeConvertor) : Prop := mkRegistryOk {
  ok_graph : consistent (graph this);
  ok_cache : cache_ok this
}.

(** The asserted precondition of [getConversionPath]: a string, or an array
    that is not empty. *)
Definition to_defined (to : ToArg) : Prop := to <> ToArray [].

(** The states a convertor can be in: the constructed one, and the state
    any call of a public method leaves, however the call ends. *)
Inductive reachable (host : Builtins) : DataTypeConvertor -> Prop :=
| reach_fresh : reachable host (fresh host)
| reach_learn this from to callback costPower costMultiplier :
    reachable host this ->
    reachable host
      (learn from to callback costPower costMultiplier this).1.1
| reach_learnDestroy this type callback :
    reachable host this ->
    reachable host (learnDestroy type callback this).1.1
| reach_getConversionPath this fuel from to :
    reachable host this -> to_defined to ->
    reachable host (getConversionPath fuel from to this).1.1
| reach_convert this fuel x from to :
    reachable host this -> to <> [] ->
    reachable host (convert fuel x from to this).1.1
| reach_destroy this type data :
    reachable host this ->
    reachable host (destroy type data this).1.1.

(** The entry [destroy] leaves in the trace. *)
Definition destroy_trace (this : DataTypeConvertor) (type : string)
    (data : JsVal) : list Event :=
  match destructors this !! type with
  | Some _ => [EDestroy type data]
  | None => []
  end.



(** The key of a node is a number, not [Infinity]. *)
Definition fin_at (st : Store) (a : addr) : Prop := is_fin (key (deref st a)).

(** The graph is the same but for the scratch fields of its nodes. *)
Definition same_graph (g g' : WeightedGraph) : Prop :=
  adjacencyList g' = adjacencyList g /\ vertices g' = vertices g /\
  values (store g') = values (store g).

(** The trace of the assertion on [costPower]. *)
Definition assert_cost_trace (costPower : Z) : list Event :=
  if (0 <=? costPower) && (costPower <=? 7) then []
  else [EAssert
    "[DataTypeConvertor] Conversion costPower must be between <0, 7>."].

(** [this._known[from]], read after it was made sure to be there. *)
Definition known_from (this : DataTypeConvertor) (from : string)
  : gmap string (option Conversion) :=
  default ∅ (_known this !! from).

(** The convertor once [this._known[from]] was made sure to be there. *)
Definition touch (this : DataTypeConvertor) (from : string)
  : DataTypeConvertor :=
  match _known this !! from with
  | Some _ => this
  | None => mkConvertor (graph this) (destructors this)
                        (<[from := ∅]> (_known this))
  end.

(** The cached conversion and the type the lookup settles on. *)
Definition choose (knownFrom : gmap string (option Conversion)) (to : ToArg)
  : option Conversion * option string :=
  match to with
  | ToString to => (known_at knownFrom to, Some to)
  | ToArray to =>
      let '(best, _, selected) :=
        foldl (pick_known knownFrom) (None, Infinity, head to) to in
      (best, selected)
  end.

(** The trace of the assertion on [to]. *)
Definition assert_to_trace (to : ToArg) : list Event :=
  match to with
  | ToArray [] =>
      [EAssert "[getConversionPath] conversion 'to' type must be defined."]
  | _ => []
  end.

(** The convertor after a search that came back with [found]. *)
Definition remember (this : DataTypeConvertor) (from : string)
    (selectedType : option string) (g : WeightedGraph)
    (found : Result (option Conversion)) : DataTypeConvertor :=
  match found with
  | Ok found =>
      mkConvertor g (destructors this)
        (<[from := <[prop_key selectedType := found]> (known_from this from)]>
           (_known (touch this from)))
  | _ => mkConvertor g (destructors this) (_known (touch this from))
  end.

(** What [getConversionPath] returns after a search. *)
Definition found_path (found : Result (option Conversion))
  : Result (option (list (option Edge))) :=
  match found with
  | Ok found => Ok (path <$> found)
  | Raise e => Raise e
  | OutOfFuel => OutOfFuel
  end.

(** The candidate [c] is cached for a type of the list and no cached
    candidate of the list costs less. *)
Definition cheapest_known (knownFrom : gmap string (option Conversion))
    (to : list string) (selectedType : option string) (c : Conversion)
  : Prop :=
  (exists t, selectedType = Some t /\ t ∈ to /\
             known_at knownFrom t = Some c) /\
  (forall t c', t ∈ to -> known_at knownFrom t = Some c' ->
                num_ltb (cost c') (cost c) = false).

(** What the loop over the candidates has established after [seen]. *)
Definition pick_inv (knownFrom : gmap string (option Conversion))
    (first : option string) (seen : list string)
    (acc : option Conversion * num * option string) : Prop :=
  match acc with
  | (Some c, bestCost, selectedType) =>
      bestCost = cost c /\ cheapest_known knownFrom seen selectedType c
  | (None, bestCost, selectedType) =>
      bestCost = Infinity /\ selectedType = first /\
      forall t, t ∈ seen -> known_at knownFrom t = None
  end.

(** The calls of [learn] the constructor makes. *)
Definition builtin_calls (host : Builtins) : list LearnCall :=
  [ mkLearnCall "canvas" "rasterUrl" (canvas_toDataURL host) 1 1;
    mkLearnCall "image" "rasterUrl" (image_url host) 0 1;
    mkLearnCall "canvas" "context2d" (canvas_getContext host) 0 1;
    mkLearnCall "context2d" "canvas" (context2D_canvas host) 0 1;
    mkLearnCall "image" "canvas" (image_drawToCanvas host) 1 1;
    mkLearnCall "rasterUrl" "image" (rasterUrl_loadImage host) 1 1 ].

(** A node as the first loop of [dijkstra] leaves it. *)
Definition reset (start : string) (n : PNode) : PNode :=
  if String.eqb (value n) start
  then mkNode (value n) (Fin 0) (Some 0%nat) None
  else mkNode (value n) Infinity None None.

(** The first loop of [dijkstra] at one vertex. *)
Definition reset_at (start : string) (st : Store) (a : addr) : Store :=
  update a (reset start) st.

(** The vertex registered for [start] in a list of entries. *)
Fixpoint assoc (start : string) (l : list (string * addr)) : option addr :=
  match l with
  | [] => None
  | (k, a) :: rest => if String.eqb k start then Some a else assoc start rest
  end.

(** A host whose [canvas.toDataURL()] yields nothing. *)
Definition failing_host : Builtins :=
  let pass : TypeConvertor := fun x => Returns x in
  mkBuiltins (fun _ => Returns JUndefined) pass pass pass pass pass.

(** The convertor as constructed on that host, with a destructor for 2-D
    contexts. *)
Definition guarded : DataTypeConvertor :=
  (learnDestroy "context2d" (fun _ => Ok tt) (fresh failing_host)).1.1.

(** A convertor taught two conversions from "A", of weight 5 to "X" and of
    weight 3 to "Y", and asked for both paths. *)
Definition two_known : DataTypeConvertor :=
  let pass : TypeConvertor := fun x => Returns x in
  let s1 := (learn "A" "X" pass 0 10 (fresh sample_host)).1.1 in
  let s2 := (learn "A" "Y" pass 0 4 s1).1.1 in
  let s3 := (getConversionPath 8 "A" (ToString "X") s2).1.1 in
  (getConversionPath 8 "A" (ToString "Y") s3).1.1.

(** A node the search has a way to: the origin, or a node with a
    predecessor. *)
Definition sourced (start : string) (st : Store) (a : addr) : Prop :=
  value (deref st a) = start \/ is_Some (_previous (deref st a)).

(** Every predecessor link follows an edge of the graph, from a node the
    search has a way to. *)
Definition previous_ok (g : WeightedGraph) (start : string) (st : Store)
  : Prop :=
  forall v u, _previous (deref st v) = Some u ->
    sourced start st u /\
    exists e, edge_of g (value (deref st u)) e /\ target e = Some v.

(** The edges pushed while walking back from a node of type [v] to a node
    of type [w], in the order they are pushed. *)
Fixpoint back_chain (st : Store) (v : string) (xs : list Edge) (w : string)
  : Prop :=
  match xs with
  | [] => v = w
  | x :: rest =>
      target_value st x = Some v /\
      exists k, origin_value st x = Some k /\ back_chain st k rest w
  end.

(** No edge weighs less than nothing. *)
Definition weights_nonneg (g : WeightedGraph) : Prop :=
  forall k e, edge_of g k e -> 0 <= weight e.

(** No key is negative. *)
Definition keys_nonneg (st : Store) : Prop :=
  forall a z, key (deref st a) = Fin z -> 0 <= z.

(** What a key counts for in the measure of the search: the nodes not
    reached yet, and the distances of those reached. *)
Definition inf_weight (k : num) : nat :=
  match k with Infinity => 1%nat | Fin _ => 0%nat end.
Definition fin_weight (k : num) : nat :=
  match k with Fin z => Z.to_nat z | Infinity => 0%nat end.
Definition unreached (st : Store) : nat :=
  sum_list_with (inf_weight ∘ key) st.
Definition distances (st : Store) : nat :=
  sum_list_with (fin_weight ∘ key) st.

(** The measure went down: fewer nodes unreached, or as many and a smaller
    sum of distances. *)
Definition closer (st' st : Store) : Prop :=
  (unreached st' < unreached st)%nat \/
  (unreached st' = unreached st /\ (distances st' < distances st)%nat).

(** Along a predecessor link the key does not grow, and when it stays the
    same the link leads to a node whose key was set earlier; [stamp] tells
    when the key of a node was set last. *)
Definition ranked (stamp : addr -> nat) (st : Store) : Prop :=
  forall v u, _previous (deref st v) = Some u ->
    exists zu zv,
      key (deref st u) = Fin zu /\ key (deref st v) = Fin zv /\
      (zu < zv \/ (zu = zv /\ (stamp u < stamp v)%nat)).

Definition acyclic (st : Store) : Prop :=
  exists (stamp : addr -> nat) (now : nat),
    ranked stamp st /\ forall a, (stamp a < now)%nat.

(** The calls keep to the asserted range of [costPower]. *)
Definition asserted (calls : list LearnCall) : Prop :=
  Forall (fun c => 0 <= lc_costPower c <= 7) calls.

(** * Properties *)

(** ** Edge weights *)

Lemma js_xor_10_5 : js_xor 10 5 = 15.
Proof. reflexivity. Qed.

Lemma clamp_multiplier_spec (m : Z) :
  clamp_multiplier m = Z.min (Z.max m 1) 15.
Proof. unfold clamp_multiplier. now rewrite js_xor_10_5. Qed.

Lemma clamp_multiplier_range (m : Z) : 1 <= clamp_multiplier m <= 15.
Proof. rewrite clamp_multiplier_spec. lia. Qed.


(** C3, as the code has it: the weight does not order by cost class.  An
    edge of class 1 with multiplier 15 weighs 0, an edge of class 0 with
    multiplier 1 weighs 12, both within the documented ranges; so it is not
    the case that every edge of a higher class outweighs every edge of a
    lower class. *)
Theorem learn_weight_not_ordered_by_class :
  learnt_weight "a" "b" 0 1 = Some 12 /\
  learnt_weight "a" "b" 1 15 = Some 0 /\
  ~ (forall c1 m1 c2 m2 : Z,
        0 <= c1 <= 7 -> 0 <= c2 <= 7 ->
        1 <= m1 <= 100000 -> 1 <= m2 <= 100000 ->
        c1 < c2 -> edge_weight c1 m1 < edge_weight c2 m2).
Proof.
  split; [reflexivity | split; [reflexivity |]].
  intros H. specialize (H 0 1 1 15).
  assert (edge_weight 0 1 < edge_weight 1 15) as Hlt by (apply H; lia).
  vm_compute in Hlt. discriminate.
Qed.

(** C4, as the code has it: the multiplier is clamped into [1, 15], the
    upper bound being [10 ^ 5] read as exclusive or.  The in-range values 16
    and 100000 are lowered to 15. *)
Theorem learn_multiplier_clamped_to_15 :
  (forall m : Z, clamp_multiplier m = Z.min (Z.max m 1) 15) /\
  clamp_multiplier 16 = 15 /\
  clamp_multiplier 100000 = 15 /\
  learnt_weight "a" "b" 0 100000 = learnt_weight "a" "b" 0 15.
Proof.
  split; [apply clamp_multiplier_spec |].
  repeat split; reflexivity.
Qed.

(** ** [guessType] *)

Lemma guessType_scalar_dom_node (type : JsVal -> string) (x : JsVal) :
  type x = "dom-node" ->
  exists what, guessType_scalar type x = Raise (TypeError what).
Proof.
  intros H. unfold guessType_scalar. rewrite H. simpl. eauto.
Qed.

(** C8, as the code has it: on a value that [$.type] tags "dom-node" and
    that is not an array, [guessType] throws a [TypeError] whatever [$.type]
    is otherwise; so does it on an array holding such a value.  Evaluated on
    an unknown element with the sample tags. *)
Theorem guessType_throws_on_dom_node :
  (forall (type : JsVal -> string) class nodeName getType,
      type (JObject class nodeName getType) = "dom-node" ->
      exists what,
        guessType type (JObject class nodeName getType)
        = Raise (TypeError what)) /\
  guessType sample_type (JObject "HTMLUnknownElement" (Some "FOO") None)
  = Raise (TypeError "guessType.nodeName is undefined") /\
  guessType sample_type
    (JArray [JStr "u"; JObject "HTMLUnknownElement" (Some "FOO") None])
  = Raise (TypeError "guessType.nodeName is undefined").
Proof.
  split; [| split; reflexivity].
  intros type class nodeName getType H. simpl.
  now apply guessType_scalar_dom_node.
Qed.

(** ** The search on a destination that is not reached *)


Lemma path_valid_end (st : Store) (A B : string) (p : list (option Edge)) :
  path_valid st A B p -> path_end st p = Some B.
Proof.
  intros (es & -> & _ & Hlast & _). unfold path_end.
  rewrite fmap_last. destruct (last es); [exact Hlast | discriminate].
Qed.

(** C1, as the code has it: on the convertor as constructed, whatever the
    host conversions, [dijkstra("canvas", "texture")] returns a path of two
    edges that starts at "canvas" and ends at "image".  "texture" is not a
    vertex; the queue runs empty, and the node removed last ("image") has a
    [_previous], which is all the test after the loop asks for. *)
Theorem dijkstra_path_ends_elsewhere (host : Builtins) :
  vertices (graph (fresh host)) !! "texture" = None /\
  exists (g' : WeightedGraph) (c : Conversion),
    dijkstra 8 (graph (fresh host)) "canvas" (Some "texture")
      = (g', Ok (Some c)) /\
    length (path c) = 2%nat /\
    path_end (store g') (path c) = Some "image" /\
    ~ path_valid (store g') "canvas" "texture" (path c).
Proof.
  split; [reflexivity |].
  eexists _, _. split; [vm_compute; reflexivity |].
  split; [reflexivity |].
  assert (forall st p, path_end st p = Some "image" ->
            ~ path_valid st "canvas" "texture" p) as Hno.
  { intros st p He Hv. apply path_valid_end in Hv. congruence. }
  split; [reflexivity | apply Hno; reflexivity].
Qed.


(** C2, as the code has it: on the convertor as constructed, with host
    conversions that hand their argument on, the search from "canvas" to the
    unregistered "texture" does not return [undefined], and
    [convert(data, "canvas", "texture")] logs no error, runs the transforms
    canvas -> rasterUrl -> image and resolves to their result.  The defect
    is the one of [dijkstra_path_ends_elsewhere]. *)
Theorem convert_unregistered_target_runs_transforms :
  vertices (graph (fresh sample_host)) !! "texture" = None /\
  (dijkstra 8 (graph (fresh sample_host)) "canvas" (Some "texture")).2
    <> Ok None /\
  exists (this' : DataTypeConvertor) (tr : list Event),
    convert 8 (JStr "data") "canvas" ["texture"] (fresh sample_host)
      = (this', tr, Ok (Resolved (JStr "data"))) /\
    no_error_logged tr /\
    transforms_run (store (graph this')) tr
      = [(Some "canvas", Some "rasterUrl"); (Some "rasterUrl", Some "image")].
Proof.
  split; [reflexivity |].
  split; [vm_compute; discriminate |].
  eexists _, _. split; [vm_compute; reflexivity |].
  split; [repeat constructor | reflexivity].
Qed.

(** ** The store *)

Lemma update_length a f (st : Store) : length (update a f st) = length st.
Proof. unfold update. apply length_insert. Qed.

Lemma deref_update a b f (st : Store) :
  deref (update a f st) b =
  if decide (a = b /\ (a < length st)%nat) then f (deref st a) else deref st b.
Proof. unfold update, deref. apply list_lookup_total_insert. Qed.

Lemma deref_update_ne a b f (st : Store) :
  a <> b -> deref (update a f st) b = deref st b.
Proof.
  intros. rewrite deref_update. by destruct (decide _) as [[? _] |].
Qed.

Lemma deref_lookup (st : Store) a n : st !! a = Some n -> deref st a = n.
Proof. apply list_lookup_total_correct. Qed.

Lemma deref_default (st : Store) a :
  (length st <= a)%nat -> deref st a = inhabitant.
Proof.
  intros H. unfold deref. rewrite list_lookup_total_alt.
  by rewrite lookup_ge_None_2.
Qed.

(** A field that [f] leaves alone is the same all over the store. *)
Lemma fmap_update {B} (g : PNode -> B) a f (st : Store) :
  (forall n, g (f n) = g n) -> g <$> update a f st = g <$> st.
Proof.
  intros Hg. unfold update. rewrite list_fmap_insert.
  apply list_insert_id'. intros Hlt. rewrite length_fmap in Hlt.
  rewrite list_lookup_fmap, Hg.
  destruct (lookup_lt_is_Some_2 st a Hlt) as [n Hn].
  by rewrite Hn, (deref_lookup st a n Hn).
Qed.

Lemma fmap_eq_deref {B} (g : PNode -> B) (st st' : Store) a :
  g <$> st = g <$> st' -> g (deref st a) = g (deref st' a).
Proof.
  intros H. unfold deref. rewrite !list_lookup_total_alt.
  assert ((g <$> st) !! a = (g <$> st') !! a) as Ha by (by rewrite H).
  rewrite !list_lookup_fmap in Ha.
  destruct (st !! a), (st' !! a); simpl in *; congruence.
Qed.

Lemma fmap_eq_length {B} (g : PNode -> B) (st st' : Store) :
  g <$> st = g <$> st' -> length st = length st'.
Proof. intros H. by rewrite <- (length_fmap g st), H, length_fmap. Qed.

Lemma index_blind_value : index_blind value.
Proof. by intros i n. Qed.
Lemma index_blind_key : index_blind key.
Proof. by intros i n. Qed.
Lemma index_blind_previous : index_blind _previous.
Proof. by intros i n. Qed.

#[local] Hint Resolve index_blind_value index_blind_key index_blind_previous
  : core.

(** ** The priority queue: what it leaves alone *)

Lemma swap_fmap {B} (g : PNode -> B) st q i j a b :
  index_blind g -> g <$> (PriorityQueue.swap st q i j a b).1 = g <$> st.
Proof.
  intros Hg. unfold PriorityQueue.swap. simpl. rewrite !fmap_update; auto.
Qed.

Lemma swap_Forall (P : nat -> Prop) st (q : list nat) i j a b :
  Forall P q -> q !! i = Some a -> q !! j = Some b ->
  Forall P (PriorityQueue.swap st q i j a b).2.
Proof.
  intros HP Ha Hb. simpl.
  apply Forall_insert; [apply Forall_insert; [done |] |];
    eapply Forall_lookup_1; eauto.
Qed.

Lemma moveUp_fmap {B} (g : PNode -> B) fuel st q i :
  index_blind g -> g <$> (PriorityQueue.moveUp fuel st q i).1 = g <$> st.
Proof.
  intros Hg. revert st q i.
  induction fuel as [| fuel IH]; intros st q i; [done |].
  cbn [PriorityQueue.moveUp]. destruct (i =? 0)%nat; [done |].
  destruct (q !! i) as [a |]; [| done].
  destruct (q !! ((i - 1) / 2)%nat) as [b |]; [| done].
  destruct (num_gtb _ _); [| done].
  destruct (PriorityQueue.swap _ _ _ _ _ _) as [st' q'] eqn:Hs.
  rewrite IH. change st' with (st', q').1. rewrite <- Hs. by apply swap_fmap.
Qed.

Lemma moveUp_Forall (P : nat -> Prop) fuel st (q : list nat) i :
  Forall P q -> Forall P (PriorityQueue.moveUp fuel st q i).2.
Proof.
  revert st q i. induction fuel as [| fuel IH]; intros st q i HP; [done |].
  cbn [PriorityQueue.moveUp]. destruct (i =? 0)%nat; [done |].
  destruct (q !! i) as [a |] eqn:Ha; [| done].
  destruct (q !! ((i - 1) / 2)%nat) as [b |] eqn:Hb; [| done].
  destruct (num_gtb _ _); [| done].
  destruct (PriorityQueue.swap _ _ _ _ _ _) as [st' q'] eqn:Hs.
  apply IH. change q' with (st', q').2. rewrite <- Hs. by apply swap_Forall.
Qed.

Lemma moveDown_fmap {B} (g : PNode -> B) fuel st q i :
  index_blind g -> g <$> (PriorityQueue.moveDown fuel st q i).1 = g <$> st.
Proof.
  intros Hg. revert st q i.
  induction fuel as [| fuel IH]; intros st q i; [done |].
  cbn [PriorityQueue.moveDown]. destruct (q !! i) as [a |]; [| done].
  destruct (q !! (2 * i + 1)%nat) as [bl |]; [| done].
  destruct (match q !! (2 * i + 2)%nat with Some br => _ | None => _ end)
    as [c b].
  destruct (num_gtb _ _); [done |].
  destruct (PriorityQueue.swap _ _ _ _ _ _) as [st' q'] eqn:Hs.
  rewrite IH. change st' with (st', q').1. rewrite <- Hs. by apply swap_fmap.
Qed.

Lemma moveDown_Forall (P : nat -> Prop) fuel st (q : list nat) i :
  Forall P q -> Forall P (PriorityQueue.moveDown fuel st q i).2.
Proof.
  revert st q i. induction fuel as [| fuel IH]; intros st q i HP; [done |].
  cbn [PriorityQueue.moveDown]. destruct (q !! i) as [a |] eqn:Ha; [| done].
  destruct (q !! (2 * i + 1)%nat) as [bl |] eqn:Hbl; [| done].
  destruct (q !! (2 * i + 2)%nat) as [br |] eqn:Hbr.
  - destruct (num_ltb _ _); (destruct (num_gtb _ _); [done |]);
      destruct (PriorityQueue.swap _ _ _ _ _ _) as [st' q'] eqn:Hs;
      apply IH; change q' with (st', q').2; rewrite <- Hs;
      by apply swap_Forall.
  - destruct (num_gtb _ _); [done |].
    destruct (PriorityQueue.swap _ _ _ _ _ _) as [st' q'] eqn:Hs.
    apply IH; change q' with (st', q').2; rewrite <- Hs; by apply swap_Forall.
Qed.

Lemma insertNode_fmap {B} (g : PNode -> B) st q node :
  index_blind g -> g <$> (PriorityQueue.insertNode st q node).1 = g <$> st.
Proof.
  intros Hg. unfold PriorityQueue.insertNode.
  rewrite moveUp_fmap by done. by apply fmap_update.
Qed.

Lemma insertNode_Forall (P : nat -> Prop) st (q : list nat) node :
  Forall P q -> P node -> Forall P (PriorityQueue.insertNode st q node).2.
Proof.
  intros HP Hn. unfold PriorityQueue.insertNode.
  apply moveUp_Forall, Forall_app. split; [done | by constructor].
Qed.

Lemma remove_fmap {B} (g : PNode -> B) st q st' q' root :
  index_blind g ->
  PriorityQueue.remove st q = Some (st', q', root) -> g <$> st' = g <$> st.
Proof.
  intros Hg. unfold PriorityQueue.remove.
  destruct q as [| r [| x rest]]; [done | |].
  - intros [= <- <- <-]. by apply fmap_update.
  - destruct (PriorityQueue.moveDown _ _ _ _) as [st2 q2] eqn:Hd.
    intros [= <- <- <-]. rewrite fmap_update by done.
    change st2 with (st2, q2).1. rewrite <- Hd, moveDown_fmap by done.
    by apply fmap_update.
Qed.

Lemma Forall_last_removelast (P : nat -> Prop) (l : list nat) d :
  Forall P l -> P d -> P (List.last l d) /\ Forall P (removelast l).
Proof.
  intros Hl Hd. induction Hl as [| x l Hx Hl IH]; [by split |].
  destruct IH as [IH1 IH2]. destruct l as [| y l]; simpl.
  - by split.
  - split; [exact IH1 | by constructor].
Qed.

Lemma remove_Forall (P : nat -> Prop) st (q : list nat) st' q' root :
  Forall P q ->
  PriorityQueue.remove st q = Some (st', q', root) -> P root /\ Forall P q'.
Proof.
  intros HP. unfold PriorityQueue.remove.
  destruct q as [| r [| x rest]]; [done | |].
  - intros [= <- <- <-]. split; [by inversion HP | constructor].
  - destruct (PriorityQueue.moveDown _ _ _ _) as [st2 q2] eqn:Hd.
    intros [= <- <- <-]. inversion HP as [| ? ? Hr Hrest]; subst.
    split; [done |]. change q2 with (st2, q2).2. rewrite <- Hd.
    apply moveDown_Forall.
    destruct (Forall_last_removelast P (x :: rest) r Hrest Hr).
    by constructor.
Qed.

Lemma remove_None st q : PriorityQueue.remove st q = None -> q = [].
Proof.
  unfold PriorityQueue.remove. destruct q as [| r [| x rest]]; [done | done |].
  by destruct (PriorityQueue.moveDown _ _ _ _).
Qed.

(** [decreaseKey] writes one key and otherwise moves indices only. *)
Lemma decreaseKey_fmap {B} (g : PNode -> B) st q node k :
  index_blind g -> (forall k n, g (set_key k n) = g n) ->
  g <$> (PriorityQueue.decreaseKey st q node k).1 = g <$> st.
Proof.
  intros Hg Hk. unfold PriorityQueue.decreaseKey.
  destruct (index _).
  - rewrite moveUp_fmap by done. by apply fmap_update.
  - rewrite insertNode_fmap by done. by apply fmap_update.
Qed.

Lemma decreaseKey_key st q node k a :
  key (deref (PriorityQueue.decreaseKey st q node k).1 a)
  = key (deref (update node (set_key k) st) a).
Proof.
  apply fmap_eq_deref. unfold PriorityQueue.decreaseKey.
  destruct (index _).
  - by rewrite moveUp_fmap.
  - by rewrite insertNode_fmap.
Qed.

Lemma decreaseKey_Forall (P : nat -> Prop) st (q : list nat) node k :
  Forall P q -> P node -> Forall P (PriorityQueue.decreaseKey st q node k).2.
Proof.
  intros HP Hn. unfold PriorityQueue.decreaseKey.
  destruct (index _).
  - by apply moveUp_Forall.
  - by apply insertNode_Forall.
Qed.

(** ** The search: what it leaves alone *)

Lemma relax_values smallestNode st q edge st' q' :
  relax smallestNode st q edge = Ok (st', q') -> values st' = values st.
Proof.
  unfold relax. destruct (target edge) as [t |]; [| done].
  destruct (num_ltb _ _); [| by intros [= <- <-]].
  intros [= H]. change st' with (st', q').1. rewrite <- H.
  unfold values. rewrite decreaseKey_fmap by done. by apply fmap_update.
Qed.

Lemma relax_all_values smallestNode neighbors st q :
  values (relax_all smallestNode st q neighbors).1.1 = values st.
Proof.
  revert st q. induction neighbors as [| edge rest IH]; intros st q; [done |].
  simpl. destruct (relax _ _ _ _) as [[st' q'] | e |] eqn:Hr; [| done | done].
  rewrite IH. by eapply relax_values.
Qed.

Lemma search_values fuel adj finish st q smallestNode :
  values (search fuel adj finish st q smallestNode).1 = values st.
Proof.
  revert st q smallestNode.
  induction fuel as [| fuel IH]; intros st q smallestNode; simpl.
  - by destruct (PriorityQueue.remove st q) as [[[st1 q1] a] |].
  - destruct (PriorityQueue.remove st q) as [[[st1 q1] a] |] eqn:Hrem;
      [| done].
    assert (values st1 = values st) as H1
      by (eapply (remove_fmap value); eauto).
    destruct (same_type _ _); [done |].
    destruct (relax_all _ _ _ _) as [[st2 q2] r] eqn:Hra.
    assert (values st2 = values st1) as H2.
    { change st2 with (st2, q2, r).1.1. rewrite <- Hra.
      apply relax_all_values. }
    destruct r; simpl; [rewrite IH |..]; congruence.
Qed.

Lemma init_vertex_values start acc kv :
  values (init_vertex start acc kv).1 = values acc.1.
Proof.
  destruct acc as [st q]. unfold init_vertex, values. simpl.
  destruct (String.eqb _ _).
  - destruct (PriorityQueue.insertNode _ _ _) as [st1 q1] eqn:Hi. simpl.
    rewrite fmap_update by done. change st1 with (st1, q1).1.
    rewrite <- Hi, insertNode_fmap by done. by apply fmap_update.
  - simpl. by rewrite !fmap_update.
Qed.

Lemma init_search_values g start :
  values (init_search g start).1 = values (store g).
Proof.
  unfold init_search.
  change (store g) with (store g, PriorityQueue.empty).1 at 2.
  generalize (store g, PriorityQueue.empty).
  induction (map_to_list (vertices g)) as [| kv l IH]; intros acc; [done |].
  cbn [foldl]. rewrite IH. apply init_vertex_values.
Qed.

(** ** The search: queued nodes have finite keys *)

Lemma fin_at_fmap (st st' : Store) a :
  key <$> st = key <$> st' -> fin_at st a -> fin_at st' a.
Proof. unfold fin_at. intros H. by rewrite (fmap_eq_deref key st st' a H). Qed.

Lemma fin_at_default (st : Store) a : (length st <= a)%nat -> fin_at st a.
Proof. intros H. unfold fin_at. rewrite deref_default by done. by exists 0. Qed.

Lemma fin_at_set_key (st : Store) node k a :
  is_fin k -> fin_at st a \/ a = node ->
  fin_at (update node (set_key k) st) a.
Proof.
  intros Hk Ha. unfold fin_at. rewrite deref_update.
  destruct (decide _) as [[-> Hlt] | Hn]; [done |].
  destruct Ha as [Ha | ->]; [done |].
  apply fin_at_default. destruct (decide (node < length st)%nat); [| lia].
  naive_solver.
Qed.

Lemma relax_fin smallestNode st q edge st' q' :
  fin_at st smallestNode -> Forall (fin_at st) q ->
  relax smallestNode st q edge = Ok (st', q') ->
  fin_at st' smallestNode /\ Forall (fin_at st') q'.
Proof.
  intros Hs Hq. unfold relax. destruct (target edge) as [t |]; [| done].
  destruct (num_ltb _ _); [| by intros [= <- <-]].
  intros [= H].
  assert (st' = (st', q').1) as E1 by done.
  assert (q' = (st', q').2) as E2 by done.
  rewrite <- H in E1, E2. clear H. subst st' q'.
  set (st1 := update t (set_previous (Some smallestNode)) st).
  set (k := num_add (key (deref st smallestNode)) (weight edge)).
  assert (is_fin k) as Hk.
  { destruct Hs as [z Hz]. subst k. rewrite Hz. by eexists. }
  assert (key <$> st = key <$> st1) as H1
    by (symmetry; by apply fmap_update).
  assert (forall a, fin_at st a \/ a = t ->
            fin_at (PriorityQueue.decreaseKey st1 q t k).1 a) as Hmono.
  { intros a Ha. unfold fin_at. rewrite decreaseKey_key.
    apply fin_at_set_key; [done |].
    destruct Ha as [Ha | ->]; [left | by right].
    by apply (fin_at_fmap st). }
  split; [apply Hmono; by left |].
  eapply Forall_impl; [apply decreaseKey_Forall |].
  - eapply Forall_impl; [exact Hq |]. intros a Ha.
    exact (or_introl (B := a = t) Ha).
  - by right.
  - simpl. intros a Ha. by apply Hmono.
Qed.

Lemma relax_all_fin smallestNode neighbors st q st' q' r :
  fin_at st smallestNode -> Forall (fin_at st) q ->
  relax_all smallestNode st q neighbors = (st', q', r) ->
  fin_at st' smallestNode /\ Forall (fin_at st') q'.
Proof.
  revert st q. induction neighbors as [| edge rest IH]; intros st q Hs Hq.
  - by intros [= <- <- <-].
  - simpl. destruct (relax _ _ _ _) as [[st1 q1] | e |] eqn:Hr.
    + destruct (relax_fin _ _ _ _ _ _ Hs Hq Hr). by apply IH.
    + by intros [= <- <- <-].
    + by intros [= <- <- <-].
Qed.

Lemma search_fin fuel adj finish st q smallestNode st' a :
  Forall (fin_at st) q ->
  (forall b, smallestNode = Some b -> fin_at st b) ->
  search fuel adj finish st q smallestNode = (st', Ok (Some a)) ->
  fin_at st' a.
Proof.
  revert st q smallestNode.
  induction fuel as [| fuel IH]; intros st q smallestNode Hq Hs; simpl.
  - destruct (PriorityQueue.remove st q) as [[[st1 q1] r] |]; [done |].
    intros [= <- ->]. by apply Hs.
  - destruct (PriorityQueue.remove st q) as [[[st1 q1] r] |] eqn:Hrem.
    2: { intros [= <- ->]. by apply Hs. }
    assert (key <$> st = key <$> st1) as Hk
      by (symmetry; eapply (remove_fmap key); eauto).
    destruct (remove_Forall (fin_at st) _ _ _ _ _ Hq Hrem) as [Hr Hq1].
    assert (fin_at st1 r) as Hr1 by (by apply (fin_at_fmap st)).
    assert (Forall (fin_at st1) q1) as Hq1'.
    { eapply Forall_impl; [exact Hq1 |]. intros b. by apply fin_at_fmap. }
    destruct (same_type _ _); [by intros [= <- <-] |].
    destruct (relax_all _ _ _ _) as [[st2 q2] res] eqn:Hra.
    destruct (relax_all_fin _ _ _ _ _ _ _ Hr1 Hq1' Hra) as [Hr2 Hq2].
    destruct res; [| done | done].
    apply IH; [done |]. by intros b [= <-].
Qed.

Lemma init_vertex_fin start st q kv :
  Forall (fun a => value (deref st a) = start /\ fin_at st a) q ->
  Forall (fun a => value (deref (init_vertex start (st, q) kv).1 a) = start /\
                   fin_at (init_vertex start (st, q) kv).1 a)
         (init_vertex start (st, q) kv).2.
Proof.
  intros Hq. destruct kv as [k v].
  assert (forall a, value (deref (init_vertex start (st, q) (k, v)).1 a)
                    = value (deref st a)) as Hval.
  { intros a. apply (fmap_eq_deref value), (init_vertex_values start (st, q)). }
  unfold init_vertex in *. simpl in *.
  destruct (String.eqb (value (deref st v)) start) eqn:Hv.
  - apply String.eqb_eq in Hv.
    destruct (PriorityQueue.insertNode _ _ _) as [st1 q1] eqn:Hi. simpl in *.
    assert (forall a, fin_at st a \/ a = v ->
              fin_at (update v (set_previous None) st1) a) as Hmono.
    { intros a Ha. apply (fin_at_fmap (update v (set_key (Fin 0)) st)).
      - rewrite (fmap_update key v (set_previous None)) by done.
        change st1 with (st1, q1).1. by rewrite <- Hi, insertNode_fmap.
      - apply fin_at_set_key; [by exists 0 | done]. }
    change q1 with (st1, q1).2. rewrite <- Hi.
    eapply Forall_impl; [apply insertNode_Forall |].
    + eapply Forall_impl; [exact Hq |]. intros a [Ha1 Ha2].
      exact (conj Ha1 (or_introl (B := a = v) Ha2)).
    + simpl. split; [exact Hv | by right].
    + simpl. intros a [Ha1 Ha2]. rewrite Hval. split; [done | by apply Hmono].
  - apply String.eqb_neq in Hv. simpl in *.
    eapply Forall_impl; [exact Hq |]. intros a [Ha1 Ha2].
    rewrite Hval. split; [done |].
    assert (a <> v) as Hne by congruence.
    unfold fin_at. by rewrite !deref_update_ne.
Qed.

Lemma init_search_fin g start :
  Forall (fin_at (init_search g start).1) (init_search g start).2.
Proof.
  unfold init_search.
  assert (Forall (fun a => value (deref (store g) a) = start /\
                           fin_at (store g) a) PriorityQueue.empty) as H
    by constructor.
  revert H. generalize (PriorityQueue.empty). generalize (store g).
  induction (map_to_list (vertices g)) as [| kv l IH]; intros st q Hq.
  - simpl. eapply Forall_impl; [exact Hq |]. by intros a [_ ?].
  - cbn [foldl]. pose proof (init_vertex_fin start st q kv Hq) as H.
    destruct (init_vertex start (st, q) kv) as [st1 q1]. by apply IH.
Qed.

(** ** What [dijkstra] returns *)

Lemma find_target_elem st to edges x :
  find_target st to edges = Ok (Some x) -> x ∈ edges.
Proof.
  induction edges as [| y rest IH]; simpl; [done |].
  destruct (target y) as [t |]; [| done].
  destruct (String.eqb _ _).
  - intros [= ->]. by left.
  - intros H. right. by apply IH.
Qed.

Lemma backtrack_edges fuel adj st smallestNode pushed p e :
  backtrack fuel adj st smallestNode pushed = Ok p ->
  Some e ∈ p ->
  Some e ∈ pushed \/ exists k es, adj !! k = Some es /\ e ∈ es.
Proof.
  revert smallestNode pushed.
  induction fuel as [| fuel IH]; intros cur pushed; simpl.
  - destruct (_previous _); [done |]. intros [= ->]. by left.
  - destruct (_previous (deref st cur)) as [parent |].
    2: { intros [= ->]. by left. }
    destruct (adj !! value (deref st parent)) as [edges |] eqn:Hadj; [| done].
    destruct (find_target _ _ _) as [found | |] eqn:Hf; [| done | done].
    intros Hb He. destruct (IH _ _ Hb He) as [Hin | Hex]; [| by right].
    apply elem_of_app in Hin as [Hin | Hin]; [by left |].
    apply list_elem_of_singleton in Hin. subst found. right.
    eexists _, _. split; [exact Hadj |]. by eapply find_target_elem.
Qed.

Lemma dijkstra_same_graph fuel g start finish :
  same_graph g (dijkstra fuel g start finish).1.
Proof.
  unfold dijkstra, same_graph. destruct (same_type start finish); [done |].
  destruct (init_search g start) as [st0 nodes] eqn:Hi.
  pose proof (init_search_values g start) as H0. rewrite Hi in H0.
  pose proof (search_values fuel (adjacencyList g) finish st0 nodes None)
    as H1.
  destruct (search _ _ _ _ _ _) as [st1 r]. simpl in *.
  assert (values st1 = values (store g)) as H by congruence.
  destruct r as [[a |] | |]; simpl; try done.
  destruct (_previous _); [| done]. by destruct (backtrack _ _ _ _ _).
Qed.

Lemma dijkstra_found fuel g start finish g' c :
  dijkstra fuel g start finish = (g', Ok (Some c)) ->
  is_fin (cost c) /\
  (same_type start finish = true -> path c = []) /\
  (forall e, Some e ∈ path c -> exists k, edge_of g k e).
Proof.
  unfold dijkstra. destruct (same_type start finish) eqn:Hsame.
  - intros [= <- <-]. simpl.
    split; [by exists 0 | split; [done |]]. intros e He. by inversion He.
  - destruct (init_search g start) as [st0 nodes] eqn:Hi.
    pose proof (init_search_fin g start) as Hq. rewrite Hi in Hq.
    destruct (search _ _ _ _ _ _) as [st1 r] eqn:Hs.
    destruct r as [[a |] | |]; try done.
    destruct (_previous _); [| done].
    destruct (backtrack _ _ _ _ _) as [pushed | |] eqn:Hb; [| done | done].
    intros [= <- <-]. simpl. split; [| split; [done |]].
    + eapply search_fin; [exact Hq | | exact Hs]. done.
    + intros e He. rewrite elem_of_reverse in He.
      destruct (backtrack_edges _ _ _ _ _ _ _ Hb He)
        as [Hin | (k & es & ? & ?)].
      * by inversion Hin.
      * exists k, es. done.
Qed.

(** ** Consistency of the graph *)

Lemma consistent_newGraph : consistent newGraph.
Proof.
  split; unfold edge_of, newGraph; cbn [vertices adjacencyList store].
  - intros k a H. by rewrite lookup_empty in H.
  - intros a H. simpl in H. lia.
  - intros k [a H]. by rewrite lookup_empty in H.
  - intros k e (es & H & _). by rewrite lookup_empty in H.
Qed.

Lemma same_graph_edge_of g g' k e :
  same_graph g g' -> edge_of g' k e <-> edge_of g k e.
Proof. intros (Ha & _ & _). unfold edge_of. by rewrite Ha. Qed.

Lemma consistent_same_graph g g' :
  same_graph g g' -> consistent g -> consistent g'.
Proof.
  intros Hsame [H1 H2 H3 H4]. pose proof Hsame as (Ha & Hv & Hs).
  pose proof (fmap_eq_length value _ _ Hs) as Hlen.
  assert (forall a, value (deref (store g') a) = value (deref (store g) a))
    as Hval by (intros a; by apply (fmap_eq_deref value)).
  split.
  - intros k a. rewrite Hv, Hlen, Hval. apply H1.
  - intros a. rewrite Hv, Hlen, Hval. apply H2.
  - intros k. rewrite Hv, Ha. apply H3.
  - intros k e He. rewrite Hv, Hlen.
    apply H4. by apply (same_graph_edge_of g g').
Qed.

(** [addVertex] never replaces a node: what was registered stays. *)
Lemma addVertex_keeps g vertex k a :
  consistent g -> vertices g !! k = Some a ->
  vertices (addVertex g vertex).1 !! k = Some a /\
  store (addVertex g vertex).1 !! a = store g !! a.
Proof.
  intros Hc Hk. unfold addVertex.
  destruct (vertices g !! vertex) as [b |] eqn:Hv; simpl; [done |].
  split.
  - rewrite lookup_insert_ne; [done | congruence].
  - apply lookup_app_l. by apply (vertex_node g Hc k a).
Qed.

Lemma addVertex_registers g vertex :
  is_Some (vertices (addVertex g vertex).1 !! vertex).
Proof.
  unfold addVertex. destruct (vertices g !! vertex) as [b |] eqn:Hv; simpl.
  - by rewrite Hv.
  - by rewrite lookup_insert_eq.
Qed.

Lemma addVertex_consistent g vertex :
  consistent g -> consistent (addVertex g vertex).1.
Proof.
  intros Hc. unfold addVertex.
  destruct (vertices g !! vertex) as [b |] eqn:Hv; simpl; [done |].
  destruct Hc as [H1 H2 H3 H4].
  set (n := mkNode vertex (Fin 0) None None).
  assert (forall a, (a < length (store g))%nat ->
            deref (store g ++ [n]) a = deref (store g) a) as Hold.
  { intros a Ha. unfold deref. by apply lookup_total_app_l. }
  assert (deref (store g ++ [n]) (length (store g)) = n) as Hnew.
  { apply deref_lookup. by rewrite lookup_app_r, Nat.sub_diag. }
  split; simpl.
  - intros k a. rewrite length_app. simpl.
    destruct (decide (vertex = k)) as [<- | Hne].
    + rewrite lookup_insert_eq. intros [= <-]. rewrite Hnew.
      split; [lia | done].
    + rewrite lookup_insert_ne by done. intros Hk.
      destruct (H1 k a Hk). rewrite Hold by done. split; [lia | done].
  - intros a. rewrite length_app. simpl. intros Ha.
    destruct (decide (a = length (store g))) as [-> | Hne].
    + rewrite Hnew. simpl. by rewrite lookup_insert_eq.
    + assert (a < length (store g))%nat as Hlt by lia.
      rewrite Hold by done. rewrite lookup_insert_ne; [by apply H2 |].
      intros Heq. specialize (H2 a Hlt). rewrite <- Heq in H2. congruence.
  - intros k. destruct (decide (vertex = k)) as [<- | Hne].
    + by rewrite !lookup_insert_eq.
    + rewrite !lookup_insert_ne by done. apply H3.
  - intros k e (es & Hes & He). simpl in Hes.
    destruct (decide (vertex = k)) as [<- | Hne].
    + rewrite lookup_insert_eq in Hes. injection Hes as <-. by inversion He.
    + rewrite lookup_insert_ne in Hes by done.
      rewrite lookup_insert_ne by done. rewrite length_app.
      destruct (H4 k e) as (Ho & Hs & t & Ht & Hlt); [by exists es |].
      split; [done | split; [done |]]. exists t. split; [done | lia].
Qed.

Lemma addEdge_consistent g vertex1 vertex2 w f :
  consistent g ->
  is_Some (vertices g !! vertex1) -> is_Some (vertices g !! vertex2) ->
  exists g', addEdge g vertex1 vertex2 w f = Ok g' /\ consistent g' /\
             store g' = store g /\ vertices g' = vertices g.
Proof.
  intros Hc H1 H2. unfold addEdge.
  destruct (vertex_adjacency g Hc _ H1) as [edges Hes]. rewrite Hes.
  eexists. split; [done |]. split; [| done].
  destruct Hc as [C1 C2 C3 C4]. split; simpl; [done | done | |].
  - intros k Hk. destruct (decide (vertex1 = k)) as [<- | Hne].
    + by rewrite lookup_insert_eq.
    + rewrite lookup_insert_ne by done. by apply C3.
  - intros k e (es & Hk & He). simpl in Hk.
    destruct (decide (vertex1 = k)) as [<- | Hne].
    + rewrite lookup_insert_eq in Hk. injection Hk as <-.
      apply elem_of_app in He as [He | He].
      * apply C4. by exists edges.
      * apply list_elem_of_singleton in He. subst e. simpl.
        split; [done | split; [done |]].
        destruct H2 as [t Ht]. exists t. split; [done |].
        by apply (C1 vertex2 t).
    + rewrite lookup_insert_ne in Hk by done. apply C4. by exists es.
Qed.



(** ** [learn] *)

Lemma learn_consistent from to callback costPower costMultiplier this :
  consistent (graph this) ->
  exists g',
    learn from to callback costPower costMultiplier this
      = (mkConvertor g' (destructors this) ∅,
         assert_cost_trace costPower, Ok tt) /\
    consistent g' /\
    (forall k a, vertices (graph this) !! k = Some a ->
                 vertices g' !! k = Some a /\
                 store g' !! a = store (graph this) !! a) /\
    addEdge (addVertex (addVertex (graph this) from).1 to).1 from to
            (edge_weight costPower costMultiplier) callback = Ok g'.
Proof.
  intros Hc.
  set (g1 := (addVertex (graph this) from).1).
  set (g2 := (addVertex g1 to).1).
  assert (consistent g1) as Hc1 by (by apply addVertex_consistent).
  assert (consistent g2) as Hc2 by (by apply addVertex_consistent).
  assert (is_Some (vertices g2 !! to)) as Hto by apply addVertex_registers.
  assert (is_Some (vertices g2 !! from)) as Hfrom.
  { destruct (addVertex_registers (graph this) from) as [a Ha].
    exists a. by apply (addVertex_keeps g1 to from a Hc1). }
  destruct (addEdge_consistent g2 from to
              (edge_weight costPower costMultiplier) callback Hc2 Hfrom Hto)
    as (g3 & He & Hc3 & Hst & Hv).
  exists g3. split; [| split; [done | split; [| done]]].
  - unfold learn, assert_cost_trace, console_assert, bind, get_this,
      set_graph, set_known, lift, emit, ret.
    fold g1. fold g2.
    destruct ((0 <=? costPower) && (costPower <=? 7)); simpl;
      fold g1; fold g2; by rewrite He.
  - intros k a Hk. rewrite Hst, Hv.
    destruct (addVertex_keeps (graph this) from k a Hc Hk) as [K1 S1].
    destruct (addVertex_keeps g1 to k a Hc1 K1) as [K2 S2].
    split; [exact K2 | exact (eq_trans S2 S1)].
Qed.

(** ** [getConversionPath], case by case *)

Lemma known_at_empty outType : known_at ∅ outType = None.
Proof. unfold known_at. by rewrite lookup_empty. Qed.

Lemma getConversionPath_hit fuel from to this c selectedType :
  choose (known_from this from) to = (Some c, selectedType) ->
  getConversionPath fuel from to this
  = (touch this from, assert_to_trace to, Ok (Some (path c))).
Proof.
  unfold getConversionPath, choose, known_from, touch, assert_to_trace.
  unfold bind, get_this, set_known, console_assert, emit, ret.
  destruct (_known this !! from) as [kf |] eqn:Hk; simpl.
  - destruct to as [t | l]; simpl.
    + by intros [= -> <-].
    + destruct (foldl _ _ l) as [[b bc] s]. intros [= -> <-].
      destruct l; simpl; by rewrite ?app_nil_r.
  - destruct to as [t | l]; simpl.
    + by rewrite known_at_empty.
    + destruct (foldl _ _ l) as [[b bc] s]. intros [= -> <-].
      destruct l; simpl; by rewrite ?app_nil_r.
Qed.

Lemma getConversionPath_miss fuel from to this selectedType :
  choose (known_from this from) to = (None, selectedType) ->
  getConversionPath fuel from to this
  = (remember this from selectedType
       (dijkstra fuel (graph this) from selectedType).1
       (dijkstra fuel (graph this) from selectedType).2,
     assert_to_trace to ++ [ESearch from selectedType],
     found_path (dijkstra fuel (graph this) from selectedType).2).
Proof.
  unfold remember, found_path.
  unfold getConversionPath, choose, known_from, touch, assert_to_trace.
  unfold bind, get_this, set_known, set_graph, lift, console_assert, emit, ret.
  destruct (_known this !! from) as [kf |] eqn:Hk; simpl.
  - destruct to as [t | l]; simpl.
    + intros [= -> <-].
      destruct (dijkstra _ _ _ _) as [g [found | e |]]; simpl; try done.
      by rewrite Hk.
    + destruct (foldl _ _ l) as [[b bc] s]. intros [= -> <-].
      destruct l; simpl;
        destruct (dijkstra _ _ _ _) as [g [found | e |]];
        simpl; rewrite ?Hk; done.
  - destruct to as [t | l]; simpl.
    + rewrite known_at_empty. intros [= <-]. simpl.
      destruct (dijkstra _ _ _ _) as [g [found | e |]]; simpl; try done.
      by rewrite lookup_insert_eq.
    + destruct (foldl _ _ l) as [[b bc] s]. intros [= -> <-].
      destruct l; simpl;
        destruct (dijkstra _ _ _ _) as [g [found | e |]];
        simpl; rewrite ?lookup_insert_eq; done.
Qed.

(** ** The choice among candidates *)

Lemma num_ltb_irrefl a : num_ltb a a = false.
Proof. destruct a; simpl; [apply Z.ltb_irrefl | done]. Qed.

Lemma num_ltb_below a b c :
  num_ltb a b = false -> num_ltb c b = true -> num_ltb a c = false.
Proof.
  destruct a, b, c; simpl; try done.
  rewrite !Z.ltb_ge, Z.ltb_lt. lia.
Qed.

Lemma num_gtb_Infinity a : is_fin a -> num_gtb Infinity a = true.
Proof. by intros [z ->]. Qed.

Lemma pick_known_inv knownFrom first seen acc outType :
  (forall t c, known_at knownFrom t = Some c -> is_fin (cost c)) ->
  pick_inv knownFrom first seen acc ->
  pick_inv knownFrom first (seen ++ [outType])
           (pick_known knownFrom acc outType).
Proof.
  intros Hfin. destruct acc as [[[c |] bestCost] selectedType]; simpl.
  - intros (-> & (t & -> & Ht & Hc) & Hmin).
    destruct (known_at knownFrom outType) as [c' |] eqn:Hk.
    + destruct (num_gtb (cost c) (cost c')) eqn:Hgt; simpl.
      * split; [done |]. split.
        -- exists outType. rewrite elem_of_app, list_elem_of_singleton. eauto.
        -- intros t' c'' Ht'.
           rewrite elem_of_app, list_elem_of_singleton in Ht'.
           destruct Ht' as [Ht' | ->]; intros Hc''.
           ++ eapply num_ltb_below; [by eapply Hmin | exact Hgt].
           ++ assert (c'' = c') as -> by congruence. apply num_ltb_irrefl.
      * split; [done |]. split.
        -- exists t. rewrite elem_of_app. eauto.
        -- intros t' c'' Ht'.
           rewrite elem_of_app, list_elem_of_singleton in Ht'.
           destruct Ht' as [Ht' | ->]; intros Hc''; [by eapply Hmin |].
           assert (c'' = c') as -> by congruence. exact Hgt.
    + simpl. split; [done |]. split.
      * exists t. rewrite elem_of_app. eauto.
      * intros t' c'' Ht'. rewrite elem_of_app, list_elem_of_singleton in Ht'.
        destruct Ht' as [Ht' | ->]; intros Hc''; [by eapply Hmin | congruence].
  - intros (-> & -> & Hnone).
    destruct (known_at knownFrom outType) as [c' |] eqn:Hk.
    + rewrite num_gtb_Infinity by (by eapply Hfin). simpl.
      split; [done |]. split.
      * exists outType. rewrite elem_of_app, list_elem_of_singleton. eauto.
      * intros t' c'' Ht'. rewrite elem_of_app, list_elem_of_singleton in Ht'.
        destruct Ht' as [Ht' | ->]; intros Hc''.
        -- rewrite (Hnone _ Ht') in Hc''. done.
        -- assert (c'' = c') as -> by congruence. apply num_ltb_irrefl.
    + simpl. split; [done |]. split; [done |].
      intros t' Ht'. rewrite elem_of_app, list_elem_of_singleton in Ht'.
      destruct Ht' as [Ht' | ->]; [by apply Hnone | done].
Qed.

Lemma foldl_pick_known_inv knownFrom first to seen acc :
  (forall t c, known_at knownFrom t = Some c -> is_fin (cost c)) ->
  pick_inv knownFrom first seen acc ->
  pick_inv knownFrom first (seen ++ to) (foldl (pick_known knownFrom) acc to).
Proof.
  intros Hfin. revert seen acc.
  induction to as [| outType to IH]; intros seen acc Hi.
  - by rewrite app_nil_r.
  - cbn [foldl].
    rewrite (assoc_L (++) seen [outType] to : seen ++ outType :: to = _).
    apply IH. by apply pick_known_inv.
Qed.

(** What [getConversionPath] settles on, given an array. *)
Lemma choose_array knownFrom to :
  (forall t c, known_at knownFrom t = Some c -> is_fin (cost c)) ->
  match choose knownFrom (ToArray to) with
  | (Some c, selectedType) => cheapest_known knownFrom to selectedType c
  | (None, selectedType) =>
      selectedType = head to /\
      forall t, t ∈ to -> known_at knownFrom t = None
  end.
Proof.
  intros Hfin. unfold choose.
  pose proof (foldl_pick_known_inv knownFrom (head to) to []
                (None, Infinity, head to) Hfin) as H.
  simpl in H. destruct (foldl _ _ to) as [[[c |] bestCost] selectedType].
  - apply H. split; [done | split; [done |]]. intros t Ht. by inversion Ht.
  - destruct H as (_ & ? & ?); [| done].
    split; [done | split; [done |]]. intros t Ht. by inversion Ht.
Qed.

(** ** The invariant of the convertor *)

Lemma known_at_Some (this : DataTypeConvertor) from to c :
  known_at (known_from this from) to = Some c <->
  exists knownFrom,
    _known this !! from = Some knownFrom /\ knownFrom !! to = Some (Some c).
Proof.
  unfold known_at, known_from. destruct (_known this !! from) as [kf |]; simpl.
  - split.
    + intros H. exists kf. split; [done |].
      destruct (kf !! to) as [[c' |] |]; simpl in H; congruence.
    + intros (kf' & [= <-] & ->). done.
  - rewrite lookup_empty. simpl. split; [done | by intros (? & ? & _)].
Qed.

Lemma cache_ok_finite this from t c :
  cache_ok this -> known_at (known_from this from) t = Some c ->
  is_fin (cost c).
Proof.
  intros Hc Hk. apply known_at_Some in Hk as (kf & H1 & H2).
  by destruct (Hc from kf t c H1 H2).
Qed.

Lemma cache_ok_empty g d : cache_ok (mkConvertor g d ∅).
Proof. intros from kf to c H. simpl in H. by rewrite lookup_empty in H. Qed.

Lemma cache_ok_same_graph this g' d' :
  same_graph (graph this) g' -> cache_ok this ->
  cache_ok (mkConvertor g' d' (_known this)).
Proof.
  intros Hsame Hc from kf to c H1 H2. simpl in *.
  destruct (Hc from kf to c H1 H2) as (Hf & Hp & He).
  split; [done | split; [done |]].
  intros e Hin. destruct (He e Hin) as [k Hk]. exists k.
  by apply (same_graph_edge_of (graph this) g').
Qed.

Lemma same_graph_refl g : same_graph g g.
Proof. done. Qed.

Lemma touch_graph this from : graph (touch this from) = graph this.
Proof. unfold touch. by destruct (_known this !! from). Qed.

Lemma touch_destructors this from :
  destructors (touch this from) = destructors this.
Proof. unfold touch. by destruct (_known this !! from). Qed.

Lemma touch_known this from :
  _known (touch this from) !! from = Some (known_from this from).
Proof.
  unfold touch, known_from. destruct (_known this !! from) eqn:H; simpl.
  - done.
  - by rewrite lookup_insert_eq.
Qed.

Lemma cache_ok_touch this from : cache_ok this -> cache_ok (touch this from).
Proof.
  intros Hc. unfold touch. destruct (_known this !! from) eqn:Hk; [done |].
  intros from' kf to c H1 H2. simpl in *.
  destruct (decide (from = from')) as [<- | Hne].
  - rewrite lookup_insert_eq in H1. injection H1 as <-.
    by rewrite lookup_empty in H2.
  - rewrite lookup_insert_ne in H1 by done. by apply (Hc from' kf to c).
Qed.

Lemma registry_ok_touch this from :
  registry_ok this -> registry_ok (touch this from).
Proof.
  intros [Hg Hc]. split; [by rewrite touch_graph | by apply cache_ok_touch].
Qed.

(** The type settled on is defined when the argument is. *)
Lemma pick_known_selected knownFrom acc outType :
  is_Some acc.2 -> is_Some (pick_known knownFrom acc outType).2.
Proof.
  destruct acc as [[b bc] s]. simpl. intros Hs.
  destruct (known_at _ _); [| done]. by destruct (num_gtb _ _).
Qed.

Lemma foldl_pick_known_selected knownFrom to acc :
  is_Some acc.2 -> is_Some (foldl (pick_known knownFrom) acc to).2.
Proof.
  revert acc. induction to as [| x l IH]; intros acc Hacc; [done |].
  cbn [foldl]. by apply IH, pick_known_selected.
Qed.

Lemma choose_selected knownFrom to :
  to_defined to -> is_Some (choose knownFrom to).2.
Proof.
  destruct to as [t | l]; simpl; [done |]. intros Hd.
  pose proof (foldl_pick_known_selected knownFrom l (None, Infinity, head l))
    as H.
  destruct (foldl _ _ l) as [[b bc] s]. apply H.
  destruct l; [by destruct Hd | done].
Qed.

(** [step] and [destroy] leave the convertor as it is. *)
Lemma destroy_state type data this : (destroy type data this).1.1 = this.
Proof.
  unfold destroy, bind, get_this, emit, lift, ret.
  destruct (destructors this !! type) as [d |]; [| done].
  by destruct (d data).
Qed.

Lemma step_state rest x this : (step rest x this).1.1 = this.
Proof.
  revert x. induction rest as [| [edge |] rest IH]; intros x; [done | | done].
  cbn [step]. unfold bind, emit, get_this, lift, ret, then_step.
  destruct (transform edge x) as [y | p | e]; [| | done].
  - destruct (truthy y); [| done]. simpl.
    destruct (origin edge) as [o |]; [| done]. simpl.
    pose proof (destroy_state (value (deref (store (graph this)) o)) x this)
      as Hd.
    destruct (destroy _ _ _) as [[this1 tr1] [[] | e |]]; simpl in *; subst;
      [| done | done].
    specialize (IH y). by destruct (step rest y this) as [[this2 tr2] r].
  - simpl. destruct (origin edge) as [o |]; [| done]. simpl.
    pose proof (destroy_state (value (deref (store (graph this)) o)) x this)
      as Hd.
    destruct (destroy _ _ _) as [[this1 tr1] [[] | e |]]; simpl in *; subst;
      [| done | done].
    destruct p as [res | e |]; [| done | done].
    specialize (IH res). by destruct (step rest res this) as [[this2 tr2] r].
Qed.

Lemma convert_state fuel x from to this :
  (convert fuel x from to this).1.1
  = (getConversionPath fuel from (ToArray to) this).1.1.
Proof.
  unfold convert, bind.
  destruct (getConversionPath _ _ _ _) as [[this1 tr1] [[p |] | e |]];
    simpl; [| done | done | done].
  pose proof (step_state p x this1) as H.
  by destruct (step p x this1) as [[this2 tr2] r].
Qed.

Lemma getConversionPath_registry_ok fuel from to this :
  registry_ok this -> to_defined to ->
  registry_ok (getConversionPath fuel from to this).1.1.
Proof.
  intros Hok Hd.
  pose proof (choose_selected (known_from this from) to Hd) as Hsel.
  destruct (choose (known_from this from) to) as [[c |] s] eqn:Hch.
  - rewrite (getConversionPath_hit _ _ _ _ _ _ Hch). simpl.
    by apply registry_ok_touch.
  - rewrite (getConversionPath_miss _ _ _ _ _ Hch). simpl.
    simpl in Hsel. destruct Hsel as [t ->]. simpl in *.
    pose proof (dijkstra_same_graph fuel (graph this) from (Some t)) as Hsame.
    pose proof (dijkstra_found fuel (graph this) from (Some t)) as Hfound.
    destruct (dijkstra _ _ _ _) as [g' found]. simpl in *.
    destruct (registry_ok_touch this from Hok) as [Hg Hc].
    rewrite touch_graph in Hg.
    assert (cache_ok (mkConvertor g' (destructors this)
                        (_known (touch this from)))) as Hc'.
    { apply (cache_ok_same_graph (touch this from)); [| done].
      by rewrite touch_graph. }
    split.
    + replace (graph (remember this from (Some t) g' found)) with g'
        by (by destruct found).
      by apply (consistent_same_graph (graph this)).
    + destruct found as [fnd | e |]; simpl; [| done | done].
      intros from' kf to' c H1 H2. simpl in *.
      destruct (decide (from = from')) as [<- | Hne].
      2: { rewrite lookup_insert_ne in H1 by done.
           by apply (Hc' from' kf to' c). }
      rewrite lookup_insert_eq in H1. injection H1 as <-.
      destruct (decide (t = to')) as [<- | Hne].
      2: { rewrite lookup_insert_ne in H2 by done.
           apply (Hc' from (known_from this from) to' c); [| done].
           apply touch_known. }
      rewrite lookup_insert_eq in H2. injection H2 as ->.
      destruct (Hfound g' c eq_refl) as (Hf & Hp & He).
      split; [done | split].
      * intros ->. apply Hp. apply String.eqb_refl.
      * intros e Hin. destruct (He e Hin) as [k Hk]. exists k.
        by apply (same_graph_edge_of (graph this) g').
Qed.

Lemma learn_registry_ok from to callback costPower costMultiplier this :
  consistent (graph this) ->
  registry_ok (learn from to callback costPower costMultiplier this).1.1.
Proof.
  intros Hc.
  destruct (learn_consistent from to callback costPower costMultiplier this Hc)
    as (g' & -> & Hc' & _).
  split; [done | apply cache_ok_empty].
Qed.

Lemma learn_all_consistent calls this :
  consistent (graph this) ->
  exists this' tr,
    learn_all calls this = (this', tr, Ok tt) /\
    consistent (graph this') /\
    destructors this' = destructors this /\
    _known this' = match calls with [] => _known this | _ => ∅ end /\
    (forall k a, vertices (graph this) !! k = Some a ->
                 vertices (graph this') !! k = Some a).
Proof.
  revert this. induction calls as [| c calls IH]; intros this Hc.
  - by exists this, [].
  - cbn [learn_all]. unfold bind, learn_call.
    destruct (learn_consistent (lc_from c) (lc_to c) (lc_callback c)
                (lc_costPower c) (lc_costMultiplier c) this Hc)
      as (g' & -> & Hc' & Hkeep & _).
    destruct (IH (mkConvertor g' (destructors this) ∅) Hc')
      as (this' & tr & -> & Hc'' & Hd & Hk & Hkeep').
    eexists _, _. split; [done |]. split; [done |]. split; [done |].
    split; [rewrite Hk; by destruct calls |].
    intros k a Hka. apply Hkeep'. simpl. by apply Hkeep.
Qed.

Lemma constructor_learn_all host :
  constructor host blank = learn_all (builtin_calls host) blank.
Proof. vm_compute. reflexivity. Qed.

Lemma fresh_registry_ok host : registry_ok (fresh host).
Proof.
  unfold fresh. rewrite constructor_learn_all.
  destruct (learn_all_consistent (builtin_calls host) blank
              consistent_newGraph) as (this' & tr & -> & Hc & _ & Hk & _).
  split; [done |]. simpl in *. destruct this' as [g d k]. simpl in *.
  subst k. apply cache_ok_empty.
Qed.

Lemma reachable_registry_ok host this :
  reachable host this -> registry_ok this.
Proof.
  induction 1 as [| this from to cb cp cm _ IH | this type cb _ IH
                  | this fuel from to _ IH Hd | this fuel x from to _ IH Hd
                  | this type data _ IH].
  - apply fresh_registry_ok.
  - apply learn_registry_ok, IH.
  - destruct IH as [Hg Hc]. split; [done |].
    by apply (cache_ok_same_graph this).
  - by apply getConversionPath_registry_ok.
  - rewrite convert_state. apply getConversionPath_registry_ok; [done |].
    intros [= ->]. done.
  - by rewrite destroy_state.
Qed.

(** ** The search does not depend on the scratch fields it finds *)

Lemma update_update a f h (st : Store) :
  update a f (update a h st) = update a (f ∘ h) st.
Proof.
  destruct (decide (a < length st)%nat) as [Hlt | Hge].
  - unfold update at 1. rewrite deref_update, decide_True by done.
    unfold update. by rewrite list_insert_insert_eq.
  - unfold update. rewrite !list_insert_ge; [done | lia | lia |].
    rewrite list_insert_ge; lia.
Qed.

Lemma update_ext a f h (st : Store) :
  f (deref st a) = h (deref st a) -> update a f st = update a h st.
Proof. unfold update. by intros ->. Qed.

Lemma init_vertex_reset start st q k a :
  value (deref st a) = k ->
  (k = start -> q = []) ->
  init_vertex start (st, q) (k, a)
  = (reset_at start st a, if String.eqb k start then [a] else q).
Proof.
  intros <- Hq. unfold init_vertex, reset_at. simpl.
  destruct (String.eqb (value (deref st a)) start) eqn:Hk.
  - apply String.eqb_eq in Hk. rewrite (Hq Hk).
    unfold PriorityQueue.insertNode. simpl. rewrite !update_update.
    f_equal. apply update_ext. unfold reset. simpl.
    by rewrite (proj2 (String.eqb_eq _ start) Hk).
  - rewrite !update_update. f_equal. apply update_ext. unfold reset. simpl.
    by rewrite Hk.
Qed.

Lemma reset_at_values start st a : values (reset_at start st a) = values st.
Proof.
  unfold reset_at, values. apply fmap_update. intros n. unfold reset.
  by destruct (String.eqb _ _).
Qed.

Lemma init_fold_reset start l : forall st q,
  NoDup l.*1 ->
  (forall k a, (k, a) ∈ l -> value (deref st a) = k) ->
  (start ∈ l.*1 -> q = []) ->
  foldl (init_vertex start) (st, q) l
  = (foldl (reset_at start) st l.*2,
     match assoc start l with Some a => [a] | None => q end).
Proof.
  induction l as [| [k a] l IH]; intros st q Hnd Hval Hq; [done |].
  cbn [foldl fmap list_fmap assoc]. simpl in Hnd.
  apply NoDup_cons in Hnd as [Hk Hnd].
  rewrite init_vertex_reset; [| apply Hval; by left |].
  2: { intros ->. apply Hq. simpl. by left. }
  assert (forall k' a', (k', a') ∈ l ->
            value (deref (reset_at start st a) a') = k') as Hval'.
  { intros k' a' Hin.
    rewrite (fmap_eq_deref value _ st a' (reset_at_values start st a)).
    apply Hval. by right. }
  destruct (String.eqb k start) eqn:Hks.
  - apply String.eqb_eq in Hks. subst k.
    rewrite IH; [| done | done | by intros ?].
    f_equal.
    assert (assoc start l = None) as ->; [| done].
    clear -Hk. induction l as [| [k' a'] l IH]; [done |]. simpl in *.
    destruct (String.eqb k' start) eqn:E.
    + apply String.eqb_eq in E. subst. destruct Hk. by left.
    + apply IH. intros H. apply Hk. by right.
  - apply String.eqb_neq in Hks.
    rewrite IH; [done | done | done |].
    intros Hin. apply Hq. simpl. by right.
Qed.

Lemma deref_foldl_reset start (l : list nat) : forall (st : Store) b,
  deref (foldl (reset_at start) st l) b
  = if decide (b ∈ l /\ (b < length st)%nat)
    then reset start (deref st b) else deref st b.
Proof.
  assert (forall n, reset start (reset start n) = reset start n) as Hidem.
  { intros n. unfold reset. destruct (String.eqb (value n) start) eqn:E;
      simpl; by rewrite E. }
  induction l as [| a l IH]; intros st b.
  - cbn [foldl]. destruct (decide (b ∈ [] /\ (b < length st)%nat))
      as [[H _] |]; [by inversion H | done].
  - cbn [foldl]. rewrite IH. unfold reset_at.
    rewrite update_length, deref_update.
    destruct (decide (a = b)) as [-> | Hab].
    + destruct (decide (b < length st)%nat) as [Hlt | Hge].
      * rewrite (decide_True (P := b = b /\ _)) by done.
        rewrite (decide_True (P := b ∈ b :: l /\ _))
          by (split; [by left | done]).
        destruct (decide (b ∈ l /\ _)); [apply Hidem | done].
      * rewrite !decide_False; [done | | |]; by intros [_ ?].
    + rewrite (decide_False (P := a = b /\ _)) by (by intros [? _]).
      destruct (decide (b ∈ l /\ _)) as [[Hin Hlt] | Hn].
      * rewrite decide_True; [done |]. split; [by right | done].
      * rewrite decide_False; [done |]. intros [Hin Hlt]. apply Hn.
        split; [| done]. apply elem_of_cons in Hin as [-> | Hin]; done.
Qed.





(** ** The path [dijkstra] builds *)

Lemma init_search_closed g start :
  consistent g ->
  init_search g start
  = (foldl (reset_at start) (store g) (map_to_list (vertices g)).*2,
     match assoc start (map_to_list (vertices g)) with
     | Some a => [a]
     | None => []
     end).
Proof.
  intros Hc. unfold init_search. apply init_fold_reset; [| | done].
  - apply NoDup_fst_map_to_list.
  - intros k a Hin. apply elem_of_map_to_list in Hin.
    by apply (vertex_node g Hc).
Qed.

Lemma deref_init_search g start a :
  consistent g ->
  deref (init_search g start).1 a
  = if decide (a < length (store g))%nat
    then reset start (deref (store g) a) else deref (store g) a.
Proof.
  intros Hc. rewrite init_search_closed by done. simpl.
  rewrite deref_foldl_reset.
  destruct (decide (a < length (store g))%nat) as [Hlt | Hge].
  - rewrite decide_True; [done |]. split; [| done].
    apply list_elem_of_fmap. exists (value (deref (store g) a), a).
    split; [done |]. apply elem_of_map_to_list. by apply (node_vertex g Hc).
  - rewrite decide_False; [done |]. by intros [_ ?].
Qed.

Lemma assoc_Some start l a : assoc start l = Some a -> (start, a) ∈ l.
Proof.
  induction l as [| [k b] l IH]; simpl; [done |].
  destruct (String.eqb k start) eqn:E.
  - apply String.eqb_eq in E. intros [= ->]. subst. by left.
  - intros H. right. by apply IH.
Qed.

Lemma init_search_queue g start a :
  consistent g -> a ∈ (init_search g start).2 -> vertices g !! start = Some a.
Proof.
  intros Hc. rewrite init_search_closed by done. simpl.
  destruct (assoc start _) as [b |] eqn:E; [| by intros H; inversion H].
  intros H. apply list_elem_of_singleton in H. subst b.
  by apply elem_of_map_to_list, assoc_Some.
Qed.

Lemma sourced_fmap start (st st' : Store) a :
  value <$> st = value <$> st' -> _previous <$> st = _previous <$> st' ->
  sourced start st a -> sourced start st' a.
Proof.
  intros Hv Hp. unfold sourced.
  by rewrite (fmap_eq_deref value st st' a Hv),
             (fmap_eq_deref _previous st st' a Hp).
Qed.

Lemma previous_ok_fmap g start (st st' : Store) :
  value <$> st = value <$> st' -> _previous <$> st = _previous <$> st' ->
  previous_ok g start st -> previous_ok g start st'.
Proof.
  intros Hv Hp Hok v u.
  rewrite <- (fmap_eq_deref _previous st st' v Hp),
          <- (fmap_eq_deref value st st' u Hv).
  intros H. destruct (Hok v u H) as [Hs He].
  split; [by apply (sourced_fmap start st st') | done].
Qed.

Lemma previous_ok_init g start :
  consistent g -> previous_ok g start (init_search g start).1.
Proof.
  intros Hc v u. rewrite deref_init_search by done.
  destruct (decide _) as [Hlt | Hge].
  - unfold reset. by destruct (String.eqb _ _).
  - by rewrite deref_default by lia.
Qed.

Lemma sourced_init g start :
  consistent g ->
  Forall (sourced start (init_search g start).1) (init_search g start).2.
Proof.
  intros Hc. apply Forall_forall. intros a Ha.
  apply (init_search_queue g start a Hc) in Ha.
  destruct (vertex_node g Hc start a Ha) as [Hlt Hv].
  left. rewrite deref_init_search, decide_True by done.
  unfold reset. by destruct (String.eqb _ _).
Qed.

Lemma relax_previous g start smallestNode st q edge st' q' :
  consistent g -> values st = values (store g) ->
  edge_of g (value (deref st smallestNode)) edge ->
  sourced start st smallestNode ->
  previous_ok g start st -> Forall (sourced start st) q ->
  relax smallestNode st q edge = Ok (st', q') ->
  sourced start st' smallestNode /\
  previous_ok g start st' /\ Forall (sourced start st') q'.
Proof.
  intros Hc Hvals He Hs Hok Hq. unfold relax.
  destruct (edge_ends g Hc _ _ He) as (_ & _ & t & Ht & Hlt).
  rewrite <- (fmap_eq_length value _ _ Hvals) in Hlt. rewrite Ht.
  destruct (num_ltb _ _); [| by intros [= <- <-]].
  set (st1 := update t (set_previous (Some smallestNode)) st).
  set (k := num_add _ _). intros [= H].
  assert (st' = (st', q').1) as E1 by done.
  assert (q' = (st', q').2) as E2 by done.
  rewrite <- H in E1, E2. clear H. subst st' q'.
  assert (value <$> st1 = value <$> st) as Hv1 by (by apply fmap_update).
  assert (forall a, sourced start st a -> sourced start st1 a) as Hmono.
  { intros a [Ha | Ha]; [left; by rewrite (fmap_eq_deref value st1 st a Hv1) |].
    right. unfold st1. rewrite deref_update.
    destruct (decide _) as [[-> _] |]; [by eexists | done]. }
  assert (previous_ok g start st1) as Hok1.
  { intros v u. unfold st1 at 1. rewrite deref_update.
    rewrite (fmap_eq_deref value st1 st u Hv1).
    destruct (decide _) as [[-> _] |].
    - simpl. intros [= <-]. split; [by apply Hmono |]. by exists edge.
    - intros Hp. destruct (Hok v u Hp) as [Hsu Hex].
      split; [by apply Hmono | done]. }
  assert (value <$> st1 = value <$> (PriorityQueue.decreaseKey st1 q t k).1)
    as Hv2 by (symmetry; by apply decreaseKey_fmap).
  assert (_previous <$> st1
          = _previous <$> (PriorityQueue.decreaseKey st1 q t k).1)
    as Hp2 by (symmetry; by apply decreaseKey_fmap).
  split; [by apply (sourced_fmap start st1), Hmono |].
  split; [by apply (previous_ok_fmap g start st1) |].
  eapply Forall_impl; [apply decreaseKey_Forall |].
  - eapply Forall_impl; [exact Hq |]. intros a Ha. exact (Hmono a Ha).
  - right. unfold st1. rewrite deref_update, decide_True by done.
    by eexists.
  - simpl. intros a Ha. by apply (sourced_fmap start st1).
Qed.

Lemma relax_all_previous g start smallestNode neighbors st q st' q' r :
  consistent g -> values st = values (store g) ->
  Forall (edge_of g (value (deref st smallestNode))) neighbors ->
  sourced start st smallestNode ->
  previous_ok g start st -> Forall (sourced start st) q ->
  relax_all smallestNode st q neighbors = (st', q', r) ->
  sourced start st' smallestNode /\
  previous_ok g start st' /\ Forall (sourced start st') q'.
Proof.
  intros Hc. revert st q.
  induction neighbors as [| edge rest IH]; intros st q Hvals Hn Hs Hok Hq.
  - by intros [= <- <- <-].
  - simpl. inversion Hn as [| ? ? He Hrest]; subst.
    destruct (relax _ _ _ _) as [[st1 q1] | e |] eqn:Hr;
      [| by intros [= <- <- <-] | by intros [= <- <- <-]].
    destruct (relax_previous _ _ _ _ _ _ _ _ Hc Hvals He Hs Hok Hq Hr)
      as (Hs1 & Hok1 & Hq1).
    pose proof (relax_values _ _ _ _ _ _ Hr) as Hv1.
    apply IH; try done; [congruence |].
    by rewrite (fmap_eq_deref value st1 st smallestNode Hv1).
Qed.

Lemma search_previous g start fuel finish st q smallestNode st' a :
  consistent g -> values st = values (store g) ->
  previous_ok g start st -> Forall (sourced start st) q ->
  (forall b, smallestNode = Some b -> sourced start st b) ->
  search fuel (adjacencyList g) finish st q smallestNode
    = (st', Ok (Some a)) ->
  sourced start st' a /\ previous_ok g start st'.
Proof.
  intros Hc. revert st q smallestNode.
  induction fuel as [| fuel IH]; intros st q sm Hvals Hok Hq Hs; simpl.
  - destruct (PriorityQueue.remove st q) as [[[st1 q1] r] |]; [done |].
    intros [= <- ->]. split; [by apply Hs | done].
  - destruct (PriorityQueue.remove st q) as [[[st1 q1] r] |] eqn:Hrem.
    2: { intros [= <- ->]. split; [by apply Hs | done]. }
    assert (value <$> st = value <$> st1) as Hv
      by (symmetry; eapply (remove_fmap value); eauto).
    assert (_previous <$> st = _previous <$> st1) as Hp
      by (symmetry; eapply (remove_fmap _previous); eauto).
    destruct (remove_Forall (sourced start st) _ _ _ _ _ Hq Hrem)
      as [Hr Hq1].
    assert (sourced start st1 r) as Hr1 by (by apply (sourced_fmap start st)).
    assert (Forall (sourced start st1) q1) as Hq1'.
    { eapply Forall_impl; [exact Hq1 |]. intros b.
      by apply sourced_fmap. }
    assert (previous_ok g start st1) as Hok1
      by (by apply (previous_ok_fmap g start st)).
    assert (values st1 = values (store g)) as Hvals1
      by (unfold values in *; congruence).
    destruct (same_type _ _); [by intros [= <- <-] |].
    destruct (relax_all _ _ _ _) as [[st2 q2] res] eqn:Hra.
    assert (Forall (edge_of g (value (deref st1 r)))
              (default [] (adjacencyList g !! value (deref st1 r)))) as Hn.
    { apply Forall_forall. intros e He. unfold edge_of.
      destruct (adjacencyList g !! _) as [es |]; simpl in He;
        [by exists es | by inversion He]. }
    destruct (relax_all_previous _ _ _ _ _ _ _ _ _ Hc Hvals1 Hn Hr1 Hok1
                Hq1' Hra) as (Hr2 & Hok2 & Hq2).
    assert (values st2 = values (store g)) as Hvals2.
    { change st2 with (st2, q2, res).1.1. rewrite <- Hra.
      by rewrite relax_all_values. }
    destruct res; [| done | done].
    apply IH; try done. by intros b [= <-].
Qed.

Lemma find_target_found st to edges e :
  e ∈ edges -> target_value st e = Some to ->
  Forall (fun x => is_Some (target x)) edges ->
  exists x, find_target st to edges = Ok (Some x) /\ x ∈ edges /\
            target_value st x = Some to.
Proof.
  intros He Ht Hall. induction Hall as [| y rest [t Hy] Hrest IH]; simpl.
  - by inversion He.
  - rewrite Hy. destruct (String.eqb (value (deref st t)) to) eqn:E.
    + apply String.eqb_eq in E. exists y. split; [done |].
      split; [by left |]. unfold target_value. by rewrite Hy, <- E.
    + apply elem_of_cons in He as [-> | He].
      * unfold target_value in Ht. rewrite Hy in Ht. simpl in Ht.
        injection Ht as Ht. apply String.eqb_neq in E. done.
      * destruct (IH He) as (x & Hf & Hin & Hx).
        exists x. split; [done | split; [by right | done]].
Qed.

Lemma backtrack_chain g start fuel st smallestNode pushed p :
  consistent g -> values st = values (store g) ->
  previous_ok g start st -> sourced start st smallestNode ->
  backtrack fuel (adjacencyList g) st smallestNode pushed = Ok p ->
  exists xs,
    p = pushed ++ (Some <$> xs) /\
    back_chain st (value (deref st smallestNode)) xs start.
Proof.
  intros Hc Hvals Hok. revert smallestNode pushed.
  assert (forall a, value (deref st a) = value (deref (store g) a)) as Hval
    by (intros a; by apply (fmap_eq_deref value)).
  induction fuel as [| fuel IH]; intros cur pushed Hs; simpl.
  - destruct (_previous (deref st cur)) as [parent |] eqn:Hp; [done |].
    intros [= <-]. exists []. rewrite app_nil_r. split; [done |]. simpl.
    destruct Hs as [Hs | [? Hs]]; [done | congruence].
  - destruct (_previous (deref st cur)) as [parent |] eqn:Hp.
    2: { intros [= <-]. exists []. rewrite app_nil_r. split; [done |]. simpl.
         destruct Hs as [Hs | [? Hs]]; [done | congruence]. }
    destruct (Hok cur parent Hp) as (Hsp & e & (edges & Hadj & Hin) & Ht).
    rewrite Hadj.
    destruct (find_target_found st (value (deref st cur)) edges e Hin)
      as (x & Hf & Hx & Htx).
    { unfold target_value. by rewrite Ht. }
    { apply Forall_forall. intros y Hy.
      destruct (edge_ends g Hc (value (deref st parent)) y)
        as (_ & _ & t & -> & _); [by exists edges | done]. }
    rewrite Hf. intros Hb.
    destruct (IH parent (pushed ++ [Some x]) Hsp Hb) as (xs & -> & Hch).
    exists (x :: xs). split; [by rewrite <- app_assoc |].
    simpl. split; [done |]. exists (value (deref st parent)).
    split; [| done].
    destruct (edge_ends g Hc (value (deref st parent)) x)
      as (Ho & [o Hso] & _); [by exists edges |].
    unfold origin_value. rewrite Hso. simpl. f_equal.
    rewrite Hso in Ho. symmetry in Ho.
    rewrite Hval. by apply (vertex_node g Hc).
Qed.

Lemma contiguous_snoc st l x :
  contiguous st l ->
  (forall y, last l = Some y -> target_value st y = origin_value st x) ->
  contiguous st (l ++ [x]).
Proof.
  induction l as [| a [| b l] IH]; intros Hc Hl; simpl in *.
  - done.
  - split; [by apply Hl | done].
  - destruct Hc as [Hab Hc]. split; [done |]. by apply IH.
Qed.

Lemma back_chain_path_valid st v xs w :
  back_chain st v xs w -> xs <> [] ->
  path_valid st w v (Some <$> reverse xs).
Proof.
  revert v. induction xs as [| x xs IH]; intros v Hch Hne; [done |].
  destruct Hch as (Ht & k & Ho & Hch).
  rewrite reverse_cons. destruct xs as [| x' xs'].
  - simpl in Hch. subst k. exists [x]. by repeat split.
  - destruct (IH k Hch) as (es & Hes & Hhd & Hlast & Hcont); [done |].
    apply (inj (fmap Some)) in Hes. subst es.
    exists (reverse (x' :: xs') ++ [x]). split; [done |].
    split; [| split].
    + destruct (reverse (x' :: xs')) eqn:E; [| done].
      apply (f_equal length) in E. rewrite length_reverse in E. done.
    + by rewrite last_snoc.
    + apply contiguous_snoc; [done |]. intros y Hy.
      rewrite Hy in Hlast. simpl in Hlast. congruence.
Qed.

(** What holds of the path [dijkstra] returns, C1 but for where the path
    ends: its edges are contiguous and it starts at [start].  It ends at
    the node removed last from the queue, the destination when the
    destination was reached. *)
Lemma dijkstra_path_contiguous fuel g start finish g' c :
  consistent g ->
  dijkstra fuel g start finish = (g', Ok (Some c)) ->
  path c <> [] ->
  exists dest, path_valid (store g') start dest (path c).
Proof.
  intros Hc. unfold dijkstra.
  destruct (same_type start finish); [by intros [= <- <-] |].
  destruct (init_search g start) as [st0 nodes] eqn:Hi.
  pose proof (init_search_values g start) as Hv0.
  pose proof (previous_ok_init g start Hc) as Hok0.
  pose proof (sourced_init g start Hc) as Hq0.
  rewrite Hi in Hv0, Hok0, Hq0. simpl in *.
  destruct (search _ _ _ _ _ _) as [st1 r] eqn:Hs.
  pose proof (search_values fuel (adjacencyList g) finish st0 nodes None)
    as Hv1. rewrite Hs in Hv1. simpl in Hv1.
  destruct r as [[a |] | |]; try done.
  assert (forall b, @None nat = Some b -> sourced start st0 b) as Hnone
    by (intros b Hb; discriminate Hb).
  destruct (search_previous g start _ _ _ _ _ _ _ Hc Hv0 Hok0 Hq0 Hnone Hs)
    as [Hsa Hok1].
  destruct (_previous (deref st1 a)) eqn:Hp; [| done].
  destruct (backtrack _ _ _ _ _) as [pushed | |] eqn:Hb; [| done | done].
  intros [= <- <-]. simpl. intros Hne.
  assert (values st1 = values (store g)) as Hv by congruence.
  destruct (backtrack_chain g start _ _ _ _ _ Hc Hv Hok1 Hsa Hb)
    as (xs & -> & Hch).
  simpl in *. rewrite <- fmap_reverse in *.
  exists (value (deref st1 a)). apply back_chain_path_valid; [done |].
  intros ->. done.
Qed.

(** ** The search returns *)

Lemma sum_list_with_insert {A} (f : A -> nat) (l : list A) i x y :
  l !! i = Some x ->
  (sum_list_with f (<[i := y]> l) + f x = sum_list_with f l + f y)%nat.
Proof.
  revert i. induction l as [| a l IH]; intros i Hi; [done |].
  destruct i as [| i]; simpl in *.
  - injection Hi as ->. lia.
  - specialize (IH i Hi). lia.
Qed.

Lemma measure_set_key (w : num -> nat) (st : Store) a k :
  (a < length st)%nat ->
  (sum_list_with (w ∘ key) (update a (set_key k) st) + w (key (deref st a))
   = sum_list_with (w ∘ key) st + w k)%nat.
Proof.
  intros Hlt. destruct (lookup_lt_is_Some_2 st a Hlt) as [n Hn].
  unfold update. rewrite (deref_lookup st a n Hn).
  exact (sum_list_with_insert (w ∘ key) st a n (set_key k n) Hn).
Qed.

Lemma measure_fmap (w : num -> nat) (st st' : Store) :
  key <$> st = key <$> st' ->
  sum_list_with (w ∘ key) st = sum_list_with (w ∘ key) st'.
Proof.
  revert st'. induction st as [| n st IH]; intros [| n' st'] H;
    try done. simpl in *. injection H as Hn H.
  by rewrite Hn, (IH st' H).
Qed.

Lemma keys_nonneg_fmap (st st' : Store) :
  key <$> st = key <$> st' -> keys_nonneg st -> keys_nonneg st'.
Proof.
  intros H Hk a z. rewrite <- (fmap_eq_deref key st st' a H). apply Hk.
Qed.

Lemma moveUp_length fuel st q i :
  length (PriorityQueue.moveUp fuel st q i).2 = length q.
Proof.
  revert st q i. induction fuel as [| fuel IH]; intros st q i; [done |].
  cbn [PriorityQueue.moveUp]. destruct (i =? 0)%nat; [done |].
  destruct (q !! i) as [a |]; [| done].
  destruct (q !! ((i - 1) / 2)%nat) as [b |]; [| done].
  destruct (num_gtb _ _); [| done].
  unfold PriorityQueue.swap. rewrite IH. by rewrite !length_insert.
Qed.

Lemma moveDown_length fuel st q i :
  length (PriorityQueue.moveDown fuel st q i).2 = length q.
Proof.
  revert st q i. induction fuel as [| fuel IH]; intros st q i; [done |].
  cbn [PriorityQueue.moveDown]. destruct (q !! i) as [a |]; [| done].
  destruct (q !! (2 * i + 1)%nat) as [bl |]; [| done].
  destruct (match q !! (2 * i + 2)%nat with Some br => _ | None => _ end)
    as [c b].
  destruct (num_gtb _ _); [done |].
  unfold PriorityQueue.swap. rewrite IH. by rewrite !length_insert.
Qed.

Lemma remove_length st q st' q' root :
  PriorityQueue.remove st q = Some (st', q', root) ->
  S (length q') = length q.
Proof.
  unfold PriorityQueue.remove. destruct q as [| r [| x rest]]; [done | |].
  - by intros [= <- <- <-].
  - destruct (PriorityQueue.moveDown _ _ _ _) as [st2 q2] eqn:Hd.
    intros [= <- <- <-]. change q2 with (st2, q2).2.
    rewrite <- Hd, moveDown_length. simpl. f_equal. f_equal.
    clear. revert x. induction rest as [| y rest IH]; intros x; [done |].
    simpl. f_equal. apply IH.
Qed.

Lemma decreaseKey_length st q node k :
  (length (PriorityQueue.decreaseKey st q node k).2 <= S (length q))%nat.
Proof.
  unfold PriorityQueue.decreaseKey. destruct (index _).
  - rewrite moveUp_length. lia.
  - unfold PriorityQueue.insertNode. rewrite moveUp_length, length_app.
    simpl. lia.
Qed.

Lemma decreaseKey_keys st q node k :
  key <$> (PriorityQueue.decreaseKey st q node k).1
  = key <$> update node (set_key k) st.
Proof.
  unfold PriorityQueue.decreaseKey. destruct (index _).
  - by rewrite moveUp_fmap.
  - by rewrite insertNode_fmap.
Qed.

(** One relaxation leaves everything as it was, or brings the search
    closer and lengthens the queue by one node at most. *)
Lemma relax_closer smallestNode st q edge t :
  target edge = Some t -> (t < length st)%nat -> 0 <= weight edge ->
  keys_nonneg st ->
  exists st' q',
    relax smallestNode st q edge = Ok (st', q') /\
    keys_nonneg st' /\
    ((st', q') = (st, q) \/
     (closer st' st /\ (length q' <= S (length q))%nat)).
Proof.
  intros Ht Hlt Hw Hk. unfold relax. rewrite Ht.
  set (newCost := num_add (key (deref st smallestNode)) (weight edge)).
  destruct (num_ltb newCost (key (deref st t))) eqn:Hcmp.
  2: { exists st, q. split; [done | split; [done | by left]]. }
  set (st1 := update t (set_previous (Some smallestNode)) st).
  destruct (PriorityQueue.decreaseKey st1 q t newCost) as [st' q'] eqn:Hd.
  exists st', q'. split; [done |].
  assert (key <$> st1 = key <$> st) as Hk1 by (by apply fmap_update).
  assert (length st1 = length st) as Hl1 by apply update_length.
  assert (key <$> st' = key <$> update t (set_key newCost) st1) as Hk'.
  { change st' with (st', q').1. rewrite <- Hd. apply decreaseKey_keys. }
  assert (key (deref st1 t) = key (deref st t)) as Hkt
    by (by apply (fmap_eq_deref key)).
  assert (exists c, newCost = Fin c /\ 0 <= c) as (c & Hc & Hc0).
  { subst newCost. destruct (key (deref st smallestNode)) as [z |] eqn:Hz;
      [| done]. exists (z + weight edge). split; [done |].
    specialize (Hk _ _ Hz). lia. }
  assert (forall w,
    (sum_list_with (w ∘ key) st' + w (key (deref st t))
     = sum_list_with (w ∘ key) st + w newCost)%nat) as Hm.
  { intros w. rewrite (measure_fmap w st' _ Hk').
    rewrite <- Hkt, <- (measure_fmap w st1 st Hk1).
    apply measure_set_key. lia. }
  split.
  - eapply keys_nonneg_fmap; [symmetry; exact Hk' |].
    intros a z. rewrite deref_update.
    destruct (decide _) as [[-> _] |].
    + simpl. rewrite Hc. by intros [= <-].
    + rewrite (fmap_eq_deref key st1 st a Hk1). apply Hk.
  - right. split.
    2: { change q' with (st', q').2. rewrite <- Hd.
         apply decreaseKey_length. }
    pose proof (Hm inf_weight) as H1. pose proof (Hm fin_weight) as H2.
    unfold closer, unreached, distances. rewrite Hc in *.
    destruct (key (deref st t)) as [z |] eqn:Hz; simpl in *.
    + right. apply Z.ltb_lt in Hcmp. specialize (Hk _ _ Hz). lia.
    + left. lia.
Qed.

Lemma closer_trans st1 st2 st3 :
  closer st3 st2 -> closer st2 st1 -> closer st3 st1.
Proof. unfold closer. lia. Qed.

(** Relaxing all edges out of a node does not throw; it leaves the measure
    and the length of the queue as they were, or brings the search
    closer. *)
Lemma relax_all_closer g k smallestNode neighbors st q :
  consistent g -> weights_nonneg g ->
  values st = values (store g) -> keys_nonneg st ->
  Forall (edge_of g k) neighbors ->
  exists st' q',
    relax_all smallestNode st q neighbors = (st', q', Ok tt) /\
    keys_nonneg st' /\ values st' = values (store g) /\
    ((unreached st' = unreached st /\ distances st' = distances st /\
      length q' = length q) \/ closer st' st).
Proof.
  intros Hc Hw. revert st q.
  induction neighbors as [| edge rest IH]; intros st q Hv Hk Hn.
  - exists st, q. split; [done |]. split; [done |]. split; [done |].
    by left.
  - inversion Hn as [| ? ? He Hrest]; subst.
    destruct (edge_ends g Hc k edge He) as (_ & _ & t & Ht & Hlt).
    rewrite <- (fmap_eq_length value _ _ Hv) in Hlt.
    destruct (relax_closer smallestNode st q edge t Ht Hlt (Hw k edge He) Hk)
      as (st1 & q1 & Hr & Hk1 & Hcase).
    pose proof (relax_values _ _ _ _ _ _ Hr) as Hv1.
    destruct (IH st1 q1) as (st2 & q2 & Hra & Hk2 & Hv2 & Hcase2);
      [congruence | done | done |].
    exists st2, q2. simpl. rewrite Hr. split; [done |].
    split; [done |]. split; [done |].
    destruct Hcase as [[= -> ->] | [Hcl Hlen]]; [done |].
    right. destruct Hcase2 as [(E1 & E2 & _) | Hcl2].
    + unfold closer in *. lia.
    + by eapply closer_trans.
Qed.

(** With weights that are not negative, the loop of the search is left
    after finitely many rounds, and not by a throw. *)
Lemma search_returns g finish :
  consistent g -> weights_nonneg g ->
  forall (c s len : nat) st q smallestNode,
    values st = values (store g) -> keys_nonneg st ->
    unreached st = c -> distances st = s -> length q = len ->
    exists N st' r,
      keys_nonneg st' /\
      forall fuel, (N <= fuel)%nat ->
        search fuel (adjacencyList g) finish st q smallestNode
        = (st', Ok r).
Proof.
  intros Hc Hw c.
  induction c as [c IHc] using lt_wf_ind. intros s.
  induction s as [s IHs] using lt_wf_ind. intros len.
  induction len as [len IHl] using lt_wf_ind.
  intros st q sm Hv Hk Hc0 Hs0 Hl0.
  destruct (PriorityQueue.remove st q) as [[[st1 q1] r] |] eqn:Hrem.
  2: { exists 0%nat, st, sm. split; [done |]. intros fuel _.
       destruct fuel; simpl; by rewrite Hrem. }
  assert (key <$> st = key <$> st1) as Hk01
    by (symmetry; eapply (remove_fmap key); eauto).
  assert (values st1 = values (store g)) as Hv1.
  { rewrite <- Hv. eapply (remove_fmap value); eauto. }
  pose proof (remove_length _ _ _ _ _ Hrem) as Hlen1.
  pose proof (keys_nonneg_fmap _ _ Hk01 Hk) as Hk1.
  destruct (same_type (value (deref st1 r)) finish) eqn:Hsame.
  { exists 1%nat, st1, (Some r). split; [done |].
    intros [| fuel] Hf; [lia |]. simpl. by rewrite Hrem, Hsame. }
  set (neighbors := default [] (adjacencyList g !! value (deref st1 r))).
  assert (Forall (edge_of g (value (deref st1 r))) neighbors) as Hn.
  { apply Forall_forall. intros e He. unfold edge_of. subst neighbors.
    destruct (adjacencyList g !! _) as [es |]; simpl in He;
      [by exists es | by inversion He]. }
  destruct (relax_all_closer g _ r neighbors st1 q1 Hc Hw Hv1 Hk1 Hn)
    as (st2 & q2 & Hra & Hk2 & Hv2 & Hcase).
  assert (exists N st' r',
            keys_nonneg st' /\
            forall fuel, (N <= fuel)%nat ->
              search fuel (adjacencyList g) finish st2 q2 (Some r)
              = (st', Ok r')) as (N & st' & r' & Hk' & HN).
  { assert (unreached st1 = c) as Hc1
      by (rewrite <- Hc0; symmetry; by apply measure_fmap).
    assert (distances st1 = s) as Hs1
      by (rewrite <- Hs0; symmetry; by apply measure_fmap).
    destruct Hcase as [(E1 & E2 & E3) | [Hlt | [Heq Hlt]]].
    - apply (IHl (length q2)); [lia | done | done | congruence | congruence
                               | done].
    - apply (IHc (unreached st2) ltac:(lia) (distances st2) (length q2));
        done.
    - apply (IHs (distances st2) ltac:(lia) (length q2)); try done.
      congruence. }
  exists (S N), st', r'. split; [done |]. intros [| fuel] Hf; [lia |].
  simpl. rewrite Hrem, Hsame. fold neighbors. rewrite Hra.
  apply HN. lia.
Qed.

(** ** The predecessor links do not go round *)

Lemma acyclic_fmap (st st' : Store) :
  key <$> st = key <$> st' -> _previous <$> st = _previous <$> st' ->
  acyclic st -> acyclic st'.
Proof.
  intros Hk Hp (stamp & now & Hr & Hb). exists stamp, now. split; [| done].
  intros v u. rewrite <- (fmap_eq_deref _previous st st' v Hp),
    <- (fmap_eq_deref key st st' u Hk), <- (fmap_eq_deref key st st' v Hk).
  apply Hr.
Qed.

Lemma relax_acyclic smallestNode st q edge st' q' t :
  target edge = Some t -> (t < length st)%nat -> 0 <= weight edge ->
  fin_at st smallestNode -> acyclic st ->
  relax smallestNode st q edge = Ok (st', q') ->
  acyclic st'.
Proof.
  intros Ht Hlt Hw [zs Hzs] (stamp & now & Hr & Hb). unfold relax.
  rewrite Ht, Hzs. cbn [num_add].
  destruct (num_ltb (Fin (zs + weight edge)) (key (deref st t))) eqn:Hcmp;
    [| intros [= <- <-]; by exists stamp, now].
  set (st1 := update t (set_previous (Some smallestNode)) st).
  intros [= H].
  assert (st' = (st', q').1) as E1 by done. rewrite <- H in E1. clear H.
  set (k := Fin (zs + weight edge)) in *.
  assert (forall a, key (deref st' a)
                    = if decide (a = t) then k else key (deref st a)) as Hkey.
  { intros a. rewrite E1, decreaseKey_key, deref_update.
    unfold st1. rewrite update_length.
    destruct (decide (a = t)) as [-> | Hat].
    - by rewrite decide_True.
    - rewrite decide_False by (intros [? _]; congruence).
      by rewrite deref_update_ne. }
  assert (forall v, _previous (deref st' v)
                    = if decide (v = t) then Some smallestNode
                      else _previous (deref st v)) as Hprev.
  { intros v. rewrite E1.
    rewrite (fmap_eq_deref _previous _ st1 v) by (by apply decreaseKey_fmap).
    unfold st1. rewrite deref_update.
    destruct (decide (v = t)) as [-> | Hvt].
    - by rewrite decide_True.
    - by rewrite decide_False by (intros [? _]; congruence). }
  assert (smallestNode <> t) as Hne.
  { intros ->. rewrite Hzs in Hcmp. simpl in Hcmp.
    apply Z.ltb_lt in Hcmp. lia. }
  exists (fun a => if decide (a = t) then now else stamp a), (S now).
  split.
  2: { intros a. destruct (decide (a = t)); [lia |]. specialize (Hb a). lia. }
  intros v u. rewrite Hprev, !Hkey.
  destruct (decide (v = t)) as [-> | Hv].
  - intros [= <-]. rewrite decide_False by done. rewrite decide_False by done.
    exists zs, (zs + weight edge). split; [done | split; [done |]].
    destruct (decide (weight edge = 0)) as [-> | ?]; [right | left; lia].
    split; [lia | apply Hb].
  - intros Hp. destruct (Hr v u Hp) as (zu & zv & Hu & Hzv & Hcase).
    destruct (decide (u = t)) as [-> | Hu'].
    + rewrite Hu in Hcmp. simpl in Hcmp. apply Z.ltb_lt in Hcmp.
      exists (zs + weight edge), zv. split; [done | split; [done |]].
      left. lia.
    + exists zu, zv. done.
Qed.

Lemma relax_all_acyclic g k smallestNode neighbors st q st' q' r :
  consistent g -> weights_nonneg g -> values st = values (store g) ->
  Forall (edge_of g k) neighbors ->
  fin_at st smallestNode -> Forall (fin_at st) q -> acyclic st ->
  relax_all smallestNode st q neighbors = (st', q', r) ->
  acyclic st'.
Proof.
  intros Hc Hw. revert st q.
  induction neighbors as [| edge rest IH]; intros st q Hv Hn Hs Hq Ha.
  - by intros [= <- <- <-].
  - simpl. inversion Hn as [| ? ? He Hrest]; subst.
    destruct (edge_ends g Hc k edge He) as (_ & _ & t & Ht & Hlt).
    rewrite <- (fmap_eq_length value _ _ Hv) in Hlt.
    destruct (relax _ _ _ _) as [[st1 q1] | e |] eqn:Hr;
      [| by intros [= <- <- <-] | by intros [= <- <- <-]].
    destruct (relax_fin _ _ _ _ _ _ Hs Hq Hr) as [Hs1 Hq1].
    pose proof (relax_values _ _ _ _ _ _ Hr) as Hv1.
    apply IH; try done; [congruence |].
    eapply relax_acyclic; eauto.
Qed.

Lemma search_acyclic g fuel finish st q smallestNode st' a :
  consistent g -> weights_nonneg g -> values st = values (store g) ->
  Forall (fin_at st) q -> acyclic st ->
  search fuel (adjacencyList g) finish st q smallestNode
    = (st', Ok (Some a)) ->
  acyclic st'.
Proof.
  intros Hc Hw. revert st q smallestNode.
  induction fuel as [| fuel IH]; intros st q sm Hvals Hq Ha; simpl.
  - destruct (PriorityQueue.remove st q) as [[[st1 q1] r] |]; [done |].
    by intros [= <- ->].
  - destruct (PriorityQueue.remove st q) as [[[st1 q1] r] |] eqn:Hrem.
    2: { by intros [= <- ->]. }
    assert (key <$> st = key <$> st1) as Hk
      by (symmetry; eapply (remove_fmap key); eauto).
    assert (_previous <$> st = _previous <$> st1) as Hp
      by (symmetry; eapply (remove_fmap _previous); eauto).
    assert (values st1 = values (store g)) as Hv1.
    { rewrite <- Hvals. eapply (remove_fmap value); eauto. }
    destruct (remove_Forall (fin_at st) _ _ _ _ _ Hq Hrem) as [Hr Hq1].
    assert (fin_at st1 r) as Hr1 by (by apply (fin_at_fmap st)).
    assert (Forall (fin_at st1) q1) as Hq1'.
    { eapply Forall_impl; [exact Hq1 |]. intros b. by apply fin_at_fmap. }
    pose proof (acyclic_fmap _ _ Hk Hp Ha) as Ha1.
    destruct (same_type _ _); [by intros [= <- <-] |].
    destruct (relax_all _ _ _ _) as [[st2 q2] res] eqn:Hra.
    assert (Forall (edge_of g (value (deref st1 r)))
              (default [] (adjacencyList g !! value (deref st1 r)))) as Hn.
    { apply Forall_forall. intros e He. unfold edge_of.
      destruct (adjacencyList g !! _) as [es |]; simpl in He;
        [by exists es | by inversion He]. }
    pose proof (relax_all_acyclic _ _ _ _ _ _ _ _ _ Hc Hw Hv1 Hn Hr1 Hq1' Ha1
                  Hra) as Ha2.
    destruct (relax_all_fin _ _ _ _ _ _ _ Hr1 Hq1' Hra) as [_ Hq2].
    assert (values st2 = values (store g)) as Hv2.
    { change st2 with (st2, q2, res).1.1. rewrite <- Hra.
      by rewrite relax_all_values. }
    destruct res; [| done | done]. by apply IH.
Qed.

(** Walking back along the predecessor links ends, and not by a throw. *)
Lemma backtrack_returns g start st :
  consistent g -> values st = values (store g) ->
  previous_ok g start st -> keys_nonneg st ->
  forall stamp, ranked stamp st ->
  forall (n1 n2 : nat) smallestNode pushed,
    fin_weight (key (deref st smallestNode)) = n1 ->
    stamp smallestNode = n2 ->
    exists N p,
      forall fuel, (N <= fuel)%nat ->
        backtrack fuel (adjacencyList g) st smallestNode pushed = Ok p.
Proof.
  intros Hc Hv Hok Hk stamp Hr n1.
  induction n1 as [n1 IH1] using lt_wf_ind. intros n2.
  induction n2 as [n2 IH2] using lt_wf_ind.
  intros cur pushed Hn1 Hn2.
  destruct (_previous (deref st cur)) as [parent |] eqn:Hp.
  2: { exists 0%nat, pushed. intros fuel _.
       destruct fuel; simpl; by rewrite Hp. }
  destruct (Hok cur parent Hp) as (_ & e & (edges & Hadj & Hin) & Ht).
  destruct (find_target_found st (value (deref st cur)) edges e Hin)
    as (x & Hf & _ & _).
  { unfold target_value. by rewrite Ht. }
  { apply Forall_forall. intros y Hy.
    destruct (edge_ends g Hc (value (deref st parent)) y)
      as (_ & _ & t & -> & _); [by exists edges | done]. }
  destruct (Hr cur parent Hp) as (zu & zv & Hzu & Hzv & Hcase).
  pose proof (Hk _ _ Hzu) as Hu0. pose proof (Hk _ _ Hzv) as Hv0.
  assert (exists N p,
            forall fuel, (N <= fuel)%nat ->
              backtrack fuel (adjacencyList g) st parent
                        (pushed ++ [Some x]) = Ok p) as (N & p & HN).
  { rewrite Hzv in Hn1. simpl in Hn1.
    destruct Hcase as [Hlt | [-> Hlt]].
    - assert (fin_weight (key (deref st parent)) < n1)%nat as Hm
        by (rewrite Hzu; simpl; lia).
      by apply (IH1 _ Hm (stamp parent)).
    - apply (IH2 (stamp parent)); [lia | by rewrite Hzu | done]. }
  exists (S N), p. intros [| fuel] Hfuel; [lia |].
  simpl. rewrite Hp, Hadj, Hf. apply HN. lia.
Qed.

Lemma keys_nonneg_init g start :
  consistent g -> keys_nonneg (init_search g start).1.
Proof.
  intros Hc a z. rewrite deref_init_search by done.
  destruct (decide _) as [Hlt | Hge].
  - unfold reset. destruct (String.eqb _ _); simpl; [| done].
    intros [= <-]. done.
  - rewrite deref_default by lia. simpl. intros [= <-]. done.
Qed.

Lemma acyclic_init g start : consistent g -> acyclic (init_search g start).1.
Proof.
  intros Hc. exists (fun _ => 0%nat), 1%nat. split; [| intros; lia].
  intros v u. rewrite deref_init_search by done.
  destruct (decide _) as [Hlt | Hge].
  - unfold reset. by destruct (String.eqb _ _).
  - by rewrite deref_default by lia.
Qed.

(** On a consistent graph without negative weights, [dijkstra] returns:
    there is a number of rounds from which on the result is the same, and
    it is a path or [undefined], not a throw. *)
Lemma dijkstra_returns g start finish :
  consistent g -> weights_nonneg g ->
  exists N g' r,
    forall fuel, (N <= fuel)%nat ->
      dijkstra fuel g start finish = (g', Ok r).
Proof.
  intros Hc Hw. unfold dijkstra.
  destruct (same_type start finish).
  { exists 0%nat. by eexists _, _. }
  destruct (init_search g start) as [st0 nodes] eqn:Hi.
  pose proof (init_search_values g start) as Hv0.
  pose proof (previous_ok_init g start Hc) as Hok0.
  pose proof (sourced_init g start Hc) as Hq0.
  pose proof (init_search_fin g start) as Hf0.
  pose proof (keys_nonneg_init g start Hc) as Hk0.
  pose proof (acyclic_init g start Hc) as Ha0.
  rewrite Hi in Hv0, Hok0, Hq0, Hf0, Hk0, Ha0. simpl in *.
  destruct (search_returns g finish Hc Hw _ _ _ st0 nodes None Hv0 Hk0
              eq_refl eq_refl eq_refl) as (N1 & st1 & r1 & Hk1 & H1).
  destruct r1 as [a |].
  2: { exists N1. eexists _, _. intros fuel Hfuel. by rewrite H1. }
  destruct (_previous (deref st1 a)) as [parent |] eqn:Hp.
  2: { exists N1. eexists _, _. intros fuel Hfuel. rewrite H1 by done.
       by rewrite Hp. }
  pose proof (H1 N1 (le_n _)) as Hs.
  assert (forall b, @None nat = Some b -> sourced start st0 b) as Hnone
    by (intros b Hb; discriminate Hb).
  destruct (search_previous g start _ _ _ _ _ _ _ Hc Hv0 Hok0 Hq0 Hnone Hs)
    as [_ Hok1].
  destruct (search_acyclic g _ _ _ _ _ _ _ Hc Hw Hv0 Hf0 Ha0 Hs)
    as (stamp & now & Hr & _).
  pose proof (search_values N1 (adjacencyList g) finish st0 nodes None)
    as Hv1. rewrite Hs in Hv1. simpl in Hv1.
  assert (values st1 = values (store g)) as Hv by congruence.
  destruct (backtrack_returns g start st1 Hc Hv Hok1 Hk1 stamp Hr _ _ a []
              eq_refl eq_refl) as (N2 & p & H2).
  exists (N1 `max` N2)%nat. eexists _, _. intros fuel Hfuel.
  rewrite H1 by lia. rewrite Hp. rewrite H2 by lia. done.
Qed.

(** ** Weights after [learn] *)

Lemma to_int32_small z : 0 <= z < 2 ^ 31 -> to_int32 z = z.
Proof.
  intros H. unfold to_int32. rewrite Z.mod_small; lia.
Qed.

Lemma js_xor_nonneg a b :
  0 <= a < 2 ^ 31 -> 0 <= b < 2 ^ 31 -> 0 <= js_xor a b.
Proof.
  intros Ha Hb. unfold js_xor. rewrite !to_int32_small by done.
  apply Z.lxor_nonneg. lia.
Qed.

(** Within the asserted range of [costPower] the weight is not negative
    (it can be zero: class 0 with multiplier 5). *)
Lemma edge_weight_nonneg costPower costMultiplier :
  0 <= costPower <= 7 -> 0 <= edge_weight costPower costMultiplier.
Proof.
  intros H. unfold edge_weight.
  pose proof (clamp_multiplier_range costMultiplier).
  apply js_xor_nonneg; lia.
Qed.

Lemma addVertex_edge_of g vertex k e :
  edge_of (addVertex g vertex).1 k e -> edge_of g k e.
Proof.
  unfold addVertex. destruct (vertices g !! vertex); [done |].
  intros (es & Hes & He). simpl in Hes.
  destruct (decide (vertex = k)) as [<- | Hne].
  - rewrite lookup_insert_eq in Hes. injection Hes as <-. by inversion He.
  - rewrite lookup_insert_ne in Hes by done. by exists es.
Qed.

Lemma addEdge_edge_of g vertex1 vertex2 w f g' k e :
  addEdge g vertex1 vertex2 w f = Ok g' ->
  edge_of g' k e -> edge_of g k e \/ weight e = w.
Proof.
  unfold addEdge. destruct (adjacencyList g !! vertex1) as [edges |] eqn:Ha;
    [| done].
  intros [= <-] (es & Hes & He). simpl in Hes.
  destruct (decide (vertex1 = k)) as [<- | Hne].
  - rewrite lookup_insert_eq in Hes. injection Hes as <-.
    apply elem_of_app in He as [He | He].
    + left. by exists edges.
    + apply list_elem_of_singleton in He. subst e. by right.
  - rewrite lookup_insert_ne in Hes by done. left. by exists es.
Qed.

Lemma learn_weights_nonneg from to callback costPower costMultiplier this :
  consistent (graph this) -> weights_nonneg (graph this) ->
  0 <= costPower <= 7 ->
  weights_nonneg
    (graph (learn from to callback costPower costMultiplier this).1.1).
Proof.
  intros Hc Hw Hcp.
  destruct (learn_consistent from to callback costPower costMultiplier this Hc)
    as (g' & Heq & _ & _ & He).
  rewrite Heq. simpl. intros k e Hin.
  destruct (addEdge_edge_of _ _ _ _ _ _ _ _ He Hin) as [Hold | ->].
  - apply (Hw k e). by apply addVertex_edge_of, addVertex_edge_of in Hold.
  - by apply edge_weight_nonneg.
Qed.

Lemma learn_all_weights_nonneg calls this :
  consistent (graph this) -> weights_nonneg (graph this) ->
  asserted calls ->
  weights_nonneg (graph (learn_all calls this).1.1).
Proof.
  revert this. induction calls as [| c calls IH]; intros this Hc Hw Ha.
  - done.
  - inversion Ha as [| ? ? Hcp Hrest]; subst.
    cbn [learn_all]. unfold bind, learn_call.
    pose proof (learn_weights_nonneg (lc_from c) (lc_to c) (lc_callback c)
                  (lc_costPower c) (lc_costMultiplier c) this Hc Hw Hcp)
      as Hw1.
    destruct (learn_consistent (lc_from c) (lc_to c) (lc_callback c)
                (lc_costPower c) (lc_costMultiplier c) this Hc)
      as (g' & Heq & Hc' & _).
    rewrite Heq in *. simpl in Hw1.
    specialize (IH (mkConvertor g' (destructors this) ∅) Hc' Hw1 Hrest).
    by destruct (learn_all calls _) as [[this2 tr2] r].
Qed.

Lemma asserted_builtin_calls host : asserted (builtin_calls host).
Proof. repeat constructor; simpl; lia. Qed.

(** After the constructor and calls of [learn] within the asserted range,
    every search returns: from some number of rounds on [dijkstra] gives a
    path or [undefined], the same for every larger bound. *)
Theorem dijkstra_returns_after_learn (host : Builtins)
    (calls : list LearnCall) (start : string) (finish : option string) :
  asserted calls ->
  exists N g' r,
    forall fuel, (N <= fuel)%nat ->
      dijkstra fuel (graph (learn_all calls (fresh host)).1.1) start finish
      = (g', Ok r).
Proof.
  intros Ha. apply dijkstra_returns.
  - destruct (learn_all_consistent calls (fresh host)
                (ok_graph _ (fresh_registry_ok host)))
      as (this & tr & -> & Hc & _). done.
  - apply learn_all_weights_nonneg; [| | done].
    + apply (ok_graph _ (fresh_registry_ok host)).
    + unfold fresh. rewrite constructor_learn_all.
      apply learn_all_weights_nonneg.
      * apply consistent_newGraph.
      * intros k e (es & H & _).
        change (adjacencyList (graph blank))
          with (∅ : gmap string (list Edge)) in H.
        by rewrite lookup_empty in H.
      * apply asserted_builtin_calls.
Qed.

(** ** The search from a type that is not registered *)

(** From a type that is not registered the search finds nothing: the queue
    is empty from the start.  (The no-path case of C2 that the code gets
    right.) *)
Lemma dijkstra_unregistered_origin fuel g start finish :
  consistent g -> vertices g !! start = None ->
  same_type start finish = false ->
  (dijkstra fuel g start finish).2 = Ok None.
Proof.
  intros Hc Hv Hs. unfold dijkstra. rewrite Hs.
  rewrite init_search_closed by done.
  destruct (assoc start (map_to_list (vertices g))) as [a |] eqn:E.
  { apply assoc_Some, elem_of_map_to_list in E. congruence. }
  by destruct fuel.
Qed.

(** ** Consistency after [learn] *)


(** ** The choice among candidate destinations *)

Lemma known_touch this from to c :
  known_at (known_from this from) to = Some c -> touch this from = this.
Proof.
  intros H. apply known_at_Some in H as (kf & Hk & _).
  unfold touch. by rewrite Hk.
Qed.

(** C6: given a non-empty array of candidates, [getConversionPath] answers
    from the cache, without a search, with a cached candidate than which no
    cached candidate costs less, when there is one; when none is cached it
    searches the first candidate and no other.  With cached costs 5 for X
    and 3 for Y, [convert(x, A, X, Y)] runs the steps of the path to Y. *)
Theorem getConversionPath_candidates (host : Builtins)
    (this : DataTypeConvertor) (fuel : nat) (from : string) :
  reachable host this ->
  (forall to t,
      t ∈ to -> is_Some (known_at (known_from this from) t) ->
      exists best selectedType,
        cheapest_known (known_from this from) to selectedType best /\
        getConversionPath fuel from (ToArray to) this
        = (this, [], Ok (Some (path best)))) /\
  (forall to,
      to <> [] ->
      (forall t, t ∈ to -> known_at (known_from this from) t = None) ->
      getConversionPath fuel from (ToArray to) this
      = (remember this from (head to)
           (dijkstra fuel (graph this) from (head to)).1
           (dijkstra fuel (graph this) from (head to)).2,
         [ESearch from (head to)],
         found_path (dijkstra fuel (graph this) from (head to)).2)) /\
  (forall X Y cX cY x,
      known_at (known_from this from) X = Some cX -> cost cX = Fin 5 ->
      known_at (known_from this from) Y = Some cY -> cost cY = Fin 3 ->
      convert fuel x from [X; Y] this = step (path cY) x this).
Proof.
  intros Hr. pose proof (reachable_registry_ok host this Hr) as [_ Hc].
  assert (forall t c, known_at (known_from this from) t = Some c ->
                      is_fin (cost c)) as Hfin
    by (intros t c; by apply cache_ok_finite).
  assert (forall to t,
      t ∈ to -> is_Some (known_at (known_from this from) t) ->
      exists best selectedType,
        cheapest_known (known_from this from) to selectedType best /\
        getConversionPath fuel from (ToArray to) this
        = (this, [], Ok (Some (path best)))) as Hhit.
  { intros to t Ht [c Hk].
    pose proof (choose_array (known_from this from) to Hfin) as Hch.
    destruct (choose (known_from this from) (ToArray to)) as [[best |] s]
      eqn:E.
    - exists best, s. split; [done |].
      rewrite (getConversionPath_hit _ _ _ _ _ _ E).
      destruct Hch as [(t' & _ & _ & Hk') _].
      rewrite (known_touch _ _ _ _ Hk'). by destruct to.
    - destruct Hch as [_ Hnone]. rewrite (Hnone t Ht) in Hk. done. }
  split; [exact Hhit | split].
  - intros to Hne Hnone.
    pose proof (choose_array (known_from this from) to Hfin) as Hch.
    destruct (choose (known_from this from) (ToArray to)) as [[best |] s]
      eqn:E.
    + destruct Hch as [(t & _ & Ht & Hk) _]. rewrite (Hnone t Ht) in Hk. done.
    + destruct Hch as [-> _].
      rewrite (getConversionPath_miss _ _ _ _ _ E). by destruct to.
  - intros X Y cX cY x HX HcX HY HcY.
    destruct (Hhit [X; Y] X) as (best & s & [(t & _ & Ht & Hk) Hmin] & Hg).
    { by left. } { by rewrite HX. }
    assert (best = cY) as ->.
    { apply elem_of_cons in Ht as [-> | Ht].
      - assert (best = cX) as -> by congruence.
        specialize (Hmin Y cY). rewrite HcX, HcY in Hmin.
        discriminate Hmin; [set_solver | done].
      - apply list_elem_of_singleton in Ht. subst t. congruence. }
    unfold convert, bind. rewrite Hg.
    by destruct (step (path cY) x this) as [[this2 tr2] r].
Qed.

(** ** Converting a type to itself *)


(** ** A transform that yields nothing *)

Lemma getConversionPath_path_edges fuel from to this this1 tr p :
  registry_ok this ->
  getConversionPath fuel from to this = (this1, tr, Ok (Some p)) ->
  destructors this1 = destructors this /\
  consistent (graph this1) /\
  forall e, Some e ∈ p -> exists k, edge_of (graph this1) k e.
Proof.
  intros [Hg Hc].
  assert (forall t c, known_at (known_from this from) t = Some c ->
                      is_fin (cost c)) as Hfin
    by (intros t c; by apply cache_ok_finite).
  destruct (choose (known_from this from) to) as [[c |] s] eqn:E.
  - rewrite (getConversionPath_hit _ _ _ _ _ _ E). intros [= <- <- <-].
    rewrite touch_graph, touch_destructors. split; [done | split; [done |]].
    assert (exists t, known_at (known_from this from) t = Some c) as [t Hk].
    { destruct to as [t | l].
      - simpl in E. injection E as E _. by exists t.
      - pose proof (choose_array (known_from this from) l Hfin) as Hch.
        rewrite E in Hch. destruct Hch as [(t & _ & _ & Hk) _]. by exists t. }
    apply known_at_Some in Hk as (kf & Hk1 & Hk2).
    by destruct (Hc from kf t c Hk1 Hk2) as (_ & _ & He).
  - rewrite (getConversionPath_miss _ _ _ _ _ E).
    pose proof (dijkstra_same_graph fuel (graph this) from s) as Hsame.
    pose proof (dijkstra_found fuel (graph this) from s) as Hfound.
    destruct (dijkstra _ _ _ _) as [g' [[c |] | e |]]; simpl;
      intros [= <- <- <-]. simpl in *.
    split; [done |].
    split; [by apply (consistent_same_graph (graph this)) |].
    destruct (Hfound g' c eq_refl) as (_ & _ & He).
    intros e Hin. destruct (He e Hin) as [k Hk]. exists k.
    by apply (same_graph_edge_of (graph this) g').
Qed.

Lemma destroy_run this type x :
  (forall d, destructors this !! type = Some d -> d x = Ok tt) ->
  destroy type x this = (this, destroy_trace this type x, Ok tt).
Proof.
  intros Hd. unfold destroy, destroy_trace, bind, get_this, emit, lift, ret.
  destruct (destructors this !! type) as [d |]; [| done].
  by rewrite (Hd d eq_refl).
Qed.

(** C7: when the path resolved has three edges, the first transform yields
    a value to go on with (at once or through a promise) and the second
    yields a falsy one, [convert] has invoked the first transform, then the
    destructor of the first edge's origin type if one is registered, then
    the second transform; it logs a warning and resolves to [undefined].
    Nothing else is in the trace: the third transform is not invoked and
    nothing is undone. *)
Theorem convert_aborts_at_empty_result (host : Builtins)
    (this this1 : DataTypeConvertor) (fuel : nat) (x y1 y2 : JsVal)
    (from : string) (to : list string) (tr1 : list Event)
    (e1 e2 e3 : Edge) :
  reachable host this ->
  getConversionPath fuel from (ToArray to) this
    = (this1, tr1, Ok (Some [Some e1; Some e2; Some e3])) ->
  (transform e1 x = Returns y1 /\ truthy y1 = true) \/
    transform e1 x = ReturnsPromise (Fulfils y1) ->
  (forall type d,
      origin_value (store (graph this1)) e1 = Some type ->
      destructors this !! type = Some d -> d x = Ok tt) ->
  transform e2 y1 = Returns y2 -> truthy y2 = false ->
  exists type1 : string,
    origin_value (store (graph this1)) e1 = Some type1 /\
    convert fuel x from to this
    = (this1,
       tr1 ++ ETransform e1 x :: destroy_trace this type1 x
           ++ [ETransform e2 y1; EWarn (target e2)],
       Ok (Resolved JUndefined)).
Proof.
  intros Hr Hpath H1 Hd H2 Hy2.
  pose proof (reachable_registry_ok host this Hr) as Hok.
  destruct (getConversionPath_path_edges _ _ _ _ _ _ _ Hok Hpath)
    as (Hds & Hc1 & Hedges).
  destruct (Hedges e1) as [k1 Hk1]; [by left |].
  destruct (edge_ends _ Hc1 k1 e1 Hk1) as (_ & [o Ho] & _).
  exists (value (deref (store (graph this1)) o)).
  assert (origin_value (store (graph this1)) e1
          = Some (value (deref (store (graph this1)) o))) as Hov
    by (unfold origin_value; by rewrite Ho).
  split; [done |].
  assert (destroy (value (deref (store (graph this1)) o)) x this1
          = (this1, destroy_trace this (value (deref (store (graph this1)) o))
                      x, Ok tt)) as Hdes.
  { rewrite destroy_run.
    - unfold destroy_trace. by rewrite Hds.
    - intros d Hdd. eapply Hd; [done |]. by rewrite <- Hds. }
  unfold convert, bind. rewrite Hpath. cbn [step].
  unfold bind, emit, get_this, ret, lift, then_step. simpl.
  destruct H1 as [[-> Hy1] | ->].
  - rewrite Hy1, Ho. simpl. rewrite Hdes, H2, Hy2. simpl.
    by rewrite <- ?app_assoc.
  - rewrite Ho. simpl. rewrite Hdes, H2, Hy2. simpl.
    by rewrite <- ?app_assoc.
Qed.

(** ** Asking twice *)







(** The state of [two_known] is reached by four calls. *)
Lemma reachable_two_known : reachable sample_host two_known.
Proof.
  unfold two_known.
  apply reach_getConversionPath; [| done].
  apply reach_getConversionPath; [| done].
  apply reach_learn, reach_learn, reach_fresh.
Defined.

(** C6 at work: with costs 5 and 3 in the cache, the path to Y is run. *)
Lemma getConversionPath_candidates_witness :
  exists cX cY,
    known_at (known_from two_known "A") "X" = Some cX /\ cost cX = Fin 5 /\
    known_at (known_from two_known "A") "Y" = Some cY /\ cost cY = Fin 3 /\
    convert 8 (JStr "v") "A" ["X"; "Y"] two_known
    = step (path cY) (JStr "v") two_known.
Proof.
  eexists _, _.
  split; [vm_compute; reflexivity |]. split; [reflexivity |].
  split; [vm_compute; reflexivity |]. split; [reflexivity |].
  eapply (proj2 (proj2 (getConversionPath_candidates sample_host two_known 8
                          "A" reachable_two_known)) "X" "Y");
    vm_compute; reflexivity.
Defined.


(** C7 at work: context2d -> canvas -> rasterUrl -> image on a host whose
    [toDataURL] yields nothing; the destructor of the 2-D context has
    run, the loading of the image has not. *)
Lemma convert_aborts_at_empty_result_witness :
  let x := JStr "ctx" in
  let this1 :=
    (getConversionPath 8 "context2d" (ToArray ["image"]) guarded).1.1 in
  let e1 := mkEdge (Some 0%nat) (Some 3%nat) 12
                   (context2D_canvas failing_host) in
  let e2 := mkEdge (Some 1%nat) (Some 0%nat) 18
                   (canvas_toDataURL failing_host) in
  exists type1 : string,
    origin_value (store (graph this1)) e1 = Some type1 /\
    convert 8 x "context2d" ["image"] guarded
    = (this1,
       [ESearch "context2d" (Some "image")]
         ++ ETransform e1 x :: destroy_trace guarded type1 x
         ++ [ETransform e2 x; EWarn (target e2)],
       Ok (Resolved JUndefined)).
Proof.
  intros x this1 e1 e2.
  apply (convert_aborts_at_empty_result failing_host guarded this1 8
           x x JUndefined "context2d" ["image"]
           [ESearch "context2d" (Some "image")] e1 e2
           (mkEdge (Some 2%nat) (Some 1%nat) 18
                   (rasterUrl_loadImage failing_host))).
  - apply reach_learnDestroy, reach_fresh.
  - vm_compute. reflexivity.
  - left. split; reflexivity.
  - intros type d H1 H2. vm_compute in H1. injection H1 as <-.
    vm_compute in H2. injection H2 as <-. reflexivity.
  - reflexivity.
  - reflexivity.
Defined.

